(** * LinkedList.h: a doubly-linked list with two merge sorts

    The development has two layers.

    - [Mem] is the pointer-level model of [LinkedList<T>]: nodes live in a
      heap, a list object holds [head_], [tail_] and [size_], and list
      objects live in a store so that two references may name the same
      object.  The structural invariants, the empty-list behaviour,
      [equals] and the copy assignment operator are studied there.
    - [Alg] is the value-level model of the algorithms ([splitHalves],
      [explode], [mergeSortRecursive], [mergeSortIterative], [isSorted]),
      written over the sequence of data items that a well-formed list
      holds; [MemFacts.refinement] proves that the primitive operations act
      on that sequence the way [Alg] uses them.
    - [MemFacts] and [AlgFacts] hold the proofs.

    [merge] and [insertOrdered] are declared in LinkedList.h and defined in
    LinkedListExercises.h, which is not part of the sources at hand: [merge]
    is modelled from the specification, [insertOrdered] is left out.

    [int] is modelled by [Z]: signed overflow is undefined in C++ and a list
    of more than [INT_MAX] nodes is outside the model. *)

From stdpp Require Import gmap strings list fin_maps sorting pretty.
From Stdlib Require Import ZArith Lia.

Open Scope Z_scope.

(** ** Exceptions and undefined behaviour *)

Inductive error : Type :=
  | RuntimeError (what : string)   (* throw std::runtime_error(what) *)
  | BadPointer                     (* dereference of nullptr or of a deleted node *)
  | OutOfFuel.                     (* a loop was cut off before it finished *)

Inductive result (A : Type) : Type :=
  | Ok (a : A)
  | Throw (e : error).
Arguments Ok {A} a.
Arguments Throw {A} e.

(* [x ← r; k] runs [k] on the value of [r] and propagates what [r] throws. *)
#[global] Instance result_bind : MBind result := fun A B k r =>
  match r with
  | Ok a => k a
  | Throw e => Throw e
  end.

Definition deref {A : Type} (o : option A) : result A :=
  match o with
  | Some a => Ok a
  | None => Throw BadPointer
  end.

Definition LIST_GENERAL_BUG_MESSAGE : string :=
  "[Error] Probable causes: wrong head_ or tail_ pointer, or some next or prev pointer not updated, or wrong size_".

Definition bug (where_ : string) : error :=
  RuntimeError (where_ +:+ LIST_GENERAL_BUG_MESSAGE).

(** ** Pointer-level model *)

Module Mem.

Definition loc := positive.   (* address of a Node *)
Definition oid := positive.   (* address of a LinkedList object *)

Section Model.

Context {T : Type}.
Context (neqb : T -> T -> bool).   (* operator!= of T *)

Record Node : Type := mkNode {
  next : option loc;
  prev : option loc;
  data : T
}.

Record LinkedList : Type := mkList {
  head_ : option loc;
  tail_ : option loc;
  size_ : Z
}.

Record state : Type := mkState {
  nodes : gmap loc Node;
  objs : gmap oid LinkedList
}.

Definition set_next (n : Node) (p : option loc) : Node :=
  mkNode p (prev n) (data n).
Definition set_prev (n : Node) (p : option loc) : Node :=
  mkNode (next n) p (data n).

(* new Node(dataArg) *)
Definition new_node (h : gmap loc Node) (dataArg : T) : loc * gmap loc Node :=
  let p := fresh (dom h) in (p, <[p := mkNode None None dataArg]> h).

(* LinkedList() *)
Definition empty_list : LinkedList := mkList None None 0.

Definition size (L : LinkedList) : Z := size_ L.

Definition empty (L : LinkedList) : bool :=
  match head_ L with None => true | Some _ => false end.

Definition front (h : gmap loc Node) (L : LinkedList) : result T :=
  match head_ L with
  | None => Throw (RuntimeError "front() called on empty LinkedList")
  | Some p => n ← deref (h !! p); Ok (data n)
  end.

Definition back (h : gmap loc Node) (L : LinkedList) : result T :=
  match tail_ L with
  | None => Throw (RuntimeError "back() called on empty LinkedList")
  | Some p => n ← deref (h !! p); Ok (data n)
  end.

Definition pushFront (newData : T) (h : gmap loc Node) (L : LinkedList)
  : result (gmap loc Node * LinkedList) :=
  let '(newNode, h) := new_node h newData in
  match head_ L with
  | None => Ok (h, mkList (Some newNode) (Some newNode) (size_ L + 1))
  | Some oldHead =>
      o ← deref (h !! oldHead);
      let h := <[oldHead := set_prev o (Some newNode)]> h in
      n ← deref (h !! newNode);
      let h := <[newNode := set_next n (Some oldHead)]> h in
      Ok (h, mkList (Some newNode) (tail_ L) (size_ L + 1))
  end.

Definition pushBack (newData : T) (h : gmap loc Node) (L : LinkedList)
  : result (gmap loc Node * LinkedList) :=
  let '(newNode, h) := new_node h newData in
  match head_ L with
  | None => Ok (h, mkList (Some newNode) (Some newNode) (size_ L + 1))
  | Some _ =>
      oldTail ← deref (tail_ L);
      o ← deref (h !! oldTail);
      let h := <[oldTail := set_next o (Some newNode)]> h in
      n ← deref (h !! newNode);
      let h := <[newNode := set_prev n (Some oldTail)]> h in
      Ok (h, mkList (head_ L) (Some newNode) (size_ L + 1))
  end.

Definition popFront (h : gmap loc Node) (L : LinkedList)
  : result (gmap loc Node * LinkedList) :=
  match head_ L with
  | None => Ok (h, L)
  | Some oldHead =>
      o ← deref (h !! oldHead);
      match next o with
      | None =>
          let h := delete oldHead h in
          let L := mkList None None (size_ L - 1) in
          if decide (0 ≠ size_ L) then Throw (bug "Error in popFront: ")
          else Ok (h, L)
      | Some newHead =>
          n ← deref (h !! newHead);
          let h := <[newHead := set_prev n None]> h in
          let h := delete oldHead h in
          Ok (h, mkList (Some newHead) (tail_ L) (size_ L - 1))
      end
  end.

Definition popBack (h : gmap loc Node) (L : LinkedList)
  : result (gmap loc Node * LinkedList) :=
  match head_ L with
  | None => Ok (h, L)
  | Some _ =>
      oldTail ← deref (tail_ L);
      o ← deref (h !! oldTail);
      match prev o with
      | None =>
          let h := delete oldTail h in
          let L := mkList None None (size_ L - 1) in
          if decide (0 ≠ size_ L) then Throw (bug "Error in popBack: ")
          else Ok (h, L)
      | Some newTail =>
          n ← deref (h !! newTail);
          let h := <[newTail := set_next n None]> h in
          let h := delete oldTail h in
          Ok (h, mkList (head_ L) (Some newTail) (size_ L - 1))
      end
  end.

(* while (head_) popBack();  Every round that does not fail deletes a node,
   so one round more than there are allocated nodes always suffices. *)
Fixpoint clear_loop (fuel : nat) (h : gmap loc Node) (L : LinkedList)
  : result (gmap loc Node * LinkedList) :=
  match head_ L with
  | None => Ok (h, L)
  | Some _ =>
      match fuel with
      | O => Throw OutOfFuel
      | S fuel' => '(h', L') ← popBack h L; clear_loop fuel' h' L'
      end
  end.

Definition clear (h : gmap loc Node) (L : LinkedList)
  : result (gmap loc Node * LinkedList) :=
  '(h', L') ← clear_loop (S (base.size h)) h L;
  if decide (0 ≠ size_ L') then Throw (bug "Error in clear: ")
  else Ok (h', L').

(* The walk of equals.  On an acyclic chain [thisCur] becomes null after at
   most as many steps as there are allocated nodes. *)
Fixpoint equals_loop (fuel : nat) (h : gmap loc Node)
    (thisCur otherCur : option loc) : result bool :=
  match thisCur with
  | None => Ok true
  | Some tp =>
      match fuel with
      | O => Throw OutOfFuel
      | S fuel' =>
          match otherCur with
          | None =>
              Throw (RuntimeError ("Error in equals: " +:+
                       "otherCur missing a node or wrong item count"))
          | Some op =>
              tn ← deref (h !! tp);
              on ← deref (h !! op);
              if neqb (data tn) (data on) then Ok false
              else equals_loop fuel' h (next tn) (next on)
          end
      end
  end.

Definition equals (h : gmap loc Node) (L other : LinkedList) : result bool :=
  if decide (size_ L ≠ size_ other) then Ok false
  else equals_loop (S (base.size h)) h (head_ L) (head_ other).

Fixpoint count_loop (fuel : nat) (h : gmap loc Node) (cur : option loc)
    (itemCount : Z) : result Z :=
  match cur with
  | None => Ok itemCount
  | Some p =>
      match fuel with
      | O => Throw OutOfFuel
      | S fuel' =>
          n ← deref (h !! p); count_loop fuel' h (next n) (itemCount + 1)
      end
  end.

Definition assertCorrectSize (h : gmap loc Node) (L : LinkedList) : result bool :=
  itemCount ← count_loop (S (base.size h)) h (head_ L) 0;
  if decide (itemCount ≠ size_ L) then Throw (bug "Error in assertCorrectSize: ")
  else Ok true.

(* The two temporaries of assertPrevLinks are lists of node addresses; they
   are kept as sequences, pushBack adding at the end and pushFront at the
   beginning, and compared position by position. *)
Fixpoint forward_loop (fuel : nat) (h : gmap loc Node) (cur : option loc)
    (forwardPtrList : list loc) : result (list loc) :=
  match cur with
  | None => Ok forwardPtrList
  | Some p =>
      match fuel with
      | O => Throw OutOfFuel
      | S fuel' =>
          n ← deref (h !! p);
          forward_loop fuel' h (next n) (forwardPtrList ++ [p])
      end
  end.

Fixpoint reverse_loop (fuel : nat) (h : gmap loc Node) (cur : option loc)
    (reversePtrList : list loc) : result (list loc) :=
  match cur with
  | None => Ok reversePtrList
  | Some p =>
      match fuel with
      | O => Throw OutOfFuel
      | S fuel' =>
          n ← deref (h !! p);
          reverse_loop fuel' h (prev n) (p :: reversePtrList)
      end
  end.

Definition assertPrevLinks (h : gmap loc Node) (L : LinkedList) : result bool :=
  forwardPtrList ← forward_loop (S (base.size h)) h (head_ L) [];
  reversePtrList ← reverse_loop (S (base.size h)) h (tail_ L) [];
  if bool_decide (forwardPtrList = reversePtrList) then Ok true
  else Throw (bug "Error in assertPrevLinks: ").

(** *** List objects in the store *)

(* A mutating member function called on the object at address [this]. *)
Definition call (this : oid)
    (m : gmap loc Node -> LinkedList -> result (gmap loc Node * LinkedList))
    (s : state) : result state :=
  L ← deref (objs s !! this);
  '(h', L') ← m (nodes s) L;
  Ok (mkState h' (<[this := L']> (objs s))).

(* while (cur) { pushBack(cur->data); cur = cur->next; } *)
Fixpoint assign_loop (fuel : nat) (this : oid) (cur : option loc) (s : state)
  : result state :=
  match cur with
  | None => Ok s
  | Some p =>
      match fuel with
      | O => Throw OutOfFuel
      | S fuel' =>
          n ← deref (nodes s !! p);
          s' ← call this (pushBack (data n)) s;
          n' ← deref (nodes s' !! p);
          assign_loop fuel' this (next n') s'
      end
  end.

(* LinkedList<T>& operator=(const LinkedList<T>& other): [other.head_] is
   read from the store after clear() has run on [this]. *)
Definition operator_assign (this other : oid) (s : state) : result state :=
  s1 ← call this clear s;
  O ← deref (objs s1 !! other);
  assign_loop (S (base.size (nodes s1))) this (head_ O) s1.

(* LinkedList() at a new address *)
Definition construct (s : state) : oid * state :=
  let this := fresh (dom (objs s)) in
  (this, mkState (nodes s) (<[this := empty_list]> (objs s))).

(* LinkedList(const LinkedList<T>& other) : LinkedList() { *this = other; } *)
Definition copy_construct (other : oid) (s : state) : result (oid * state) :=
  let '(this, s0) := construct s in
  s' ← operator_assign this other s0;
  Ok (this, s').

(* ~LinkedList() { clear(); } *)
Definition destroy (this : oid) (s : state) : result state :=
  s' ← call this clear s;
  Ok (mkState (nodes s') (delete this (objs s'))).

(** *** Calls as a transition system *)

Inductive method : Type :=
  | PushFront (newData : T)
  | PushBack (newData : T)
  | PopFront
  | PopBack
  | Clear
  | Assign (other : oid).

Inductive action : Type :=
  | New
  | Copy (other : oid)
  | Delete (this : oid)
  | Call (this : oid) (m : method).

Definition exec (a : action) (s : state) : result state :=
  match a with
  | New => Ok (snd (construct s))
  | Copy other => '(_, s') ← copy_construct other s; Ok s'
  | Delete this => destroy this s
  | Call this (PushFront v) => call this (pushFront v) s
  | Call this (PushBack v) => call this (pushBack v) s
  | Call this PopFront => call this popFront s
  | Call this PopBack => call this popBack s
  | Call this Clear => call this clear s
  | Call this (Assign other) => operator_assign this other s
  end.

(* The objects an action refers to exist. *)
Definition defined (a : action) (s : state) : Prop :=
  match a with
  | New => True
  | Copy other => is_Some (objs s !! other)
  | Delete this => is_Some (objs s !! this)
  | Call this (Assign other) =>
      is_Some (objs s !! this) ∧ is_Some (objs s !! other)
  | Call this _ => is_Some (objs s !! this)
  end.

Definition init : state := mkState ∅ ∅.

(* A sequence of actions, each running in the state the previous one left. *)
Definition run (acts : list action) (s : state) : result state :=
  foldl (fun r a => r ≫= exec a) (Ok s) acts.

(* The states a program can bring about through the interface of the class. *)
Inductive reachable : state -> Prop :=
  | reach_init : reachable init
  | reach_step s a s' : reachable s -> exec a s = Ok s' -> reachable s'.

(** *** Representation *)

(* The node that stands at position [i] of a chain [cells] of addresses and
   data items, when it holds [x]. *)
Definition node_at (cells : list (loc * T)) (i : nat) (x : T) : Node :=
  mkNode (fst <$> cells !! S i)
         (match i with O => None | S j => fst <$> cells !! j end)
         x.

(* [L] is the list whose nodes are, from head to tail, at the addresses of
   [cells] and hold the data of [cells]. *)
Definition repr (h : gmap loc Node) (L : LinkedList) (cells : list (loc * T))
  : Prop :=
  head_ L = fst <$> head cells ∧
  tail_ L = fst <$> last cells ∧
  size_ L = Z.of_nat (length cells) ∧
  NoDup cells.*1 ∧
  ∀ i p x, cells !! i = Some (p, x) → h !! p = Some (node_at cells i x).

(* [own] gives the chain of every object: every object is a well-formed
   list and no node belongs to two objects. *)
Definition owns (s : state) (own : gmap oid (list (loc * T))) : Prop :=
  (∀ o, is_Some (own !! o) ↔ is_Some (objs s !! o)) ∧
  (∀ o L cells, objs s !! o = Some L → own !! o = Some cells →
     repr (nodes s) L cells) ∧
  (∀ o1 o2 c1 c2, o1 ≠ o2 → own !! o1 = Some c1 → own !! o2 = Some c2 →
     c1.*1 ## c2.*1).

Definition wf_state (s : state) : Prop := ∃ own, owns s own.

(* The sequence of data items of the object at [o], from head to tail. *)
Definition holds (s : state) (o : oid) (xs : list T) : Prop :=
  ∃ L cells, objs s !! o = Some L ∧ repr (nodes s) L cells ∧ cells.*2 = xs.

(* The invariants of the data model, in the terms of the checks the class
   itself provides. *)
Definition links_consistent (h : gmap loc Node) (ps : list loc) : Prop :=
  ∀ p n, p ∈ ps → h !! p = Some n →
    (∀ q, next n = Some q → ∃ m, h !! q = Some m ∧ prev m = Some p) ∧
    (∀ q, prev n = Some q → ∃ m, h !! q = Some m ∧ next m = Some p).

Definition invariant (h : gmap loc Node) (L : LinkedList) : Prop :=
  ∃ ps : list loc,
    forward_loop (S (base.size h)) h (head_ L) [] = Ok ps ∧
    reverse_loop (S (base.size h)) h (tail_ L) [] = Ok ps ∧
    size_ L = Z.of_nat (length ps) ∧
    (head_ L = None ↔ tail_ L = None) ∧
    (head_ L = None ↔ size_ L = 0) ∧
    links_consistent h ps ∧
    assertCorrectSize h L = Ok true ∧
    assertPrevLinks h L = Ok true.

(* The nodes met by following [next] from [p] until the null pointer, with
   the data they hold.  Nothing is asked of [prev] or of a size counter. *)
Fixpoint chain (h : gmap loc Node) (p : option loc) (c : list (loc * T)) : Prop :=
  match c with
  | [] => p = None
  | (q, x) :: c' =>
      p = Some q ∧ ∃ n, h !! q = Some n ∧ data n = x ∧ chain h (next n) c'
  end.

(* The walk of equals over the data of two chains. *)
Fixpoint lockstep (xs ys : list T) : result bool :=
  match xs with
  | [] => Ok true
  | x :: xs' =>
      match ys with
      | [] =>
          Throw (RuntimeError ("Error in equals: " +:+
                   "otherCur missing a node or wrong item count"))
      | y :: ys' => if neqb x y then Ok false else lockstep xs' ys'
      end
  end.

(* The data of two chains agree wherever both have a node. *)
Definition agree (xs ys : list T) : Prop :=
  ∀ i x y, xs !! i = Some x → ys !! i = Some y → neqb x y = false.

(* The reading of equals under which a chain that ends early, on either
   side, is always reported as a fatal error. *)
Definition equals_reports_any_short_chain
    (h : gmap loc Node) (L other : LinkedList) : Prop :=
  size_ L = size_ other →
  ∀ c1 c2, chain h (head_ L) c1 → chain h (head_ other) c2 →
    length c1 ≠ length c2 →
    ∃ what, equals h L other = Throw (RuntimeError what).

(* What a member function does to a well-formed list with chain [cells]: it
   returns normally with chain [cells'], leaves alone every node outside the
   chain, deallocates the nodes it drops from the chain, and takes new nodes
   from unallocated addresses only. *)
Definition post (h : gmap loc Node) (cells : list (loc * T))
    (r : result (gmap loc Node * LinkedList)) (cells' : list (loc * T)) : Prop :=
  ∃ h' L', r = Ok (h', L') ∧ repr h' L' cells' ∧
    (∀ q, q ∉ cells.*1 → q ∉ cells'.*1 → h' !! q = h !! q) ∧
    (∀ q, q ∈ cells.*1 → q ∉ cells'.*1 → h' !! q = None) ∧
    (∀ q, q ∈ cells'.*1 → q ∈ cells.*1 ∨ h !! q = None).

(** *** The member functions that only read the list *)

Context (leb : T -> T -> bool).     (* operator<= of T *)
Context (show : T -> string).       (* what operator<< writes for a T *)

(* while (cur->next) { prev = cur; cur = cur->next;
     if (!(prev->data <= cur->data)) return false; } *)
Fixpoint isSorted_loop (fuel : nat) (h : gmap loc Node) (cur : loc)
  : result bool :=
  c ← deref (h !! cur);
  match next c with
  | None => Ok true
  | Some nxt =>
      match fuel with
      | O => Throw OutOfFuel
      | S fuel' =>
          n ← deref (h !! nxt);
          if negb (leb (data c) (data n)) then Ok false
          else isSorted_loop fuel' h nxt
      end
  end.

Definition isSorted (h : gmap loc Node) (L : LinkedList) : result bool :=
  if decide (size_ L < 2) then Ok true
  else match head_ L with
       | None => Throw (bug "Error in isSorted: ")
       | Some hd => isSorted_loop (S (base.size h)) h hd
       end.

(* while (cur) { os << "(" << cur->data << ")"; cur = cur->next; } *)
Fixpoint print_loop (fuel : nat) (h : gmap loc Node) (cur : option loc)
    (os : string) : result string :=
  match cur with
  | None => Ok os
  | Some p =>
      match fuel with
      | O => Throw OutOfFuel
      | S fuel' =>
          n ← deref (h !! p);
          print_loop fuel' h (next n) (os +:+ "(" +:+ show (data n) +:+ ")")
      end
  end.

(* [os] is what the stream has received so far. *)
Definition print (os : string) (h : gmap loc Node) (L : LinkedList)
  : result string :=
  os ← print_loop (S (base.size h)) h (head_ L) (os +:+ "[");
  Ok (os +:+ "]").

(** *** Further notions for the proofs *)

(* The addresses met by following the link [sel] from [cur] until the null
   pointer. *)
Fixpoint path (sel : Node -> option loc) (h : gmap loc Node)
    (cur : option loc) (ps : list loc) : Prop :=
  match ps with
  | [] => cur = None
  | q :: ps' => cur = Some q ∧ ∃ n, h !! q = Some n ∧ path sel h (sel n) ps'
  end.

(* Every allocated node is in the chain of an object. *)
Definition tight (s : state) (own : gmap oid (list (loc * T))) : Prop :=
  ∀ q, is_Some (nodes s !! q) → ∃ o cells, own !! o = Some cells ∧ q ∈ cells.*1.

(* Every adjacent pair of [xs] is in order. *)
Definition adjacent_in_order (xs : list T) : Prop :=
  ∀ i x y, xs !! i = Some x → xs !! S i = Some y → leb x y = true.

(* What print writes for the data [xs]. *)
Definition rendering (xs : list T) : string :=
  "[" +:+ foldr (fun x out => "(" +:+ show x +:+ ")" +:+ out) "]" xs.

End Model.

(** *** A sample run, with [int] data *)

Definition int_neqb (a b : Z) : bool := negb (a =? b).

Definition demo_actions : list (@action Z) :=
  [ New; Call 1%positive (PushBack 5); Call 1%positive (PushFront 3);
    Copy 1%positive; Call 2%positive PopBack; New ].

Definition demo_state : @state Z :=
  match run demo_actions init with
  | Ok s => s
  | Throw _ => init
  end.

(* A list whose size counter says 1 and whose chain has one node, and a list
   whose size counter says 1 although its chain has two nodes. *)
Definition bad_heap : gmap loc (@Node Z) :=
  <[1%positive := mkNode None None 7]>
  (<[2%positive := mkNode (Some 3%positive) None 7]>
  (<[3%positive := mkNode None (Some 2%positive) 8]> ∅)).
Definition short_list : LinkedList := mkList (Some 1%positive) (Some 1%positive) 1.
Definition long_list : LinkedList := mkList (Some 2%positive) (Some 3%positive) 1.
(* The same two nodes under a list whose tail pointer stayed on the head. *)
Definition wrong_tail_list : LinkedList :=
  mkList (Some 2%positive) (Some 2%positive) 2.

(* The three lists of the sample run. *)
Definition demo_list_1 : LinkedList := mkList (Some 2%positive) (Some 1%positive) 2.
Definition demo_list_2 : LinkedList := mkList (Some 3%positive) (Some 3%positive) 1.
Definition demo_cells_1 : list (loc * Z) := [(2%positive, 3); (1%positive, 5)].
Definition demo_cells_2 : list (loc * Z) := [(3%positive, 3)].

End Mem.

(** ** Value-level model of the algorithms *)

Module Alg.

(** A well-formed [LinkedList<A>] is given by the sequence of its data items;
    [MemFacts.refinement] relates the operations below to the pointer-level
    ones. *)
Section Container.

Context {A : Type}.

Definition size (l : list A) : Z := Z.of_nat (length l).

Definition empty (l : list A) : bool :=
  match l with [] => true | _ :: _ => false end.

Definition front (l : list A) : result A :=
  match l with
  | [] => Throw (RuntimeError "front() called on empty LinkedList")
  | x :: _ => Ok x
  end.

Definition back (l : list A) : result A :=
  match last l with
  | None => Throw (RuntimeError "back() called on empty LinkedList")
  | Some x => Ok x
  end.

Definition pushFront (newData : A) (l : list A) : list A := newData :: l.
Definition pushBack (newData : A) (l : list A) : list A := l ++ [newData].
Definition popFront (l : list A) : list A := tail l.
Definition popBack (l : list A) : list A := removelast l.

(* Assignment through the reference that front() or back() returned. *)
Definition assign_front (x : A) (l : list A) : list A :=
  match l with [] => [] | _ :: l' => x :: l' end.
Definition assign_back (x : A) (l : list A) : list A :=
  match l with [] => [] | _ :: _ => removelast l ++ [x] end.

End Container.

Section Algorithms.

Context {T : Type}.
Context (leb : T -> T -> bool).   (* operator<= of T *)

(* while (cur->next) { prev = cur; cur = cur->next; ... } *)
Fixpoint isSorted_loop (cur : T) (rest : list T) : bool :=
  match rest with
  | [] => true
  | nxt :: rest' =>
      if negb (leb cur nxt) then false else isSorted_loop nxt rest'
  end.

Definition isSorted (l : list T) : result bool :=
  if size l <? 2 then Ok true
  else match l with
       | [] => Throw (bug "Error in isSorted: ")
       | x :: rest => Ok (isSorted_loop x rest)
       end.

(* for (int i=0; i<rightHalfLength; i++), with [n] rounds left *)
Fixpoint splitHalves_loop (n : nat) (leftHalf rightHalf : list T)
  : result (list T * list T) :=
  match n with
  | O => Ok (leftHalf, rightHalf)
  | S n' =>
      dataToCopy ← back leftHalf;
      let rightHalf := pushFront dataToCopy rightHalf in
      let leftHalf := popBack leftHalf in
      splitHalves_loop n' leftHalf rightHalf
  end.

Definition splitHalves (l : list T) : result (list (list T)) :=
  let halves : list (list T) := [] in
  let leftHalf := l in
  let rightHalf : list T := [] in
  if size l <? 2 then Ok (pushBack rightHalf (pushBack leftHalf halves))
  else
    let rightHalfLength := Z.quot (size l) 2 in
    '(leftHalf, rightHalf) ←
       splitHalves_loop (Z.to_nat rightHalfLength) leftHalf rightHalf;
    Ok (pushBack rightHalf (pushBack leftHalf halves)).

(* while (!workingCopy.empty()): one round for each element of the copy *)
Fixpoint explode_loop (fuel : nat) (workingCopy : list T)
    (lists : list (list T)) : result (list (list T)) :=
  if empty workingCopy then Ok lists
  else match fuel with
       | O => Throw OutOfFuel
       | S fuel' =>
           x ← front workingCopy;
           let singletonList := pushBack x [] in
           let workingCopy := popFront workingCopy in
           explode_loop fuel' workingCopy (pushBack singletonList lists)
       end.

Definition explode (l : list T) : result (list (list T)) :=
  explode_loop (length l) l [].

(** Modelled from the spec: [merge], which LinkedList.h declares and whose
    body is in LinkedListExercises.h, a file that is not among the sources.
    The spec (4.8) asks for a linear merge of two sorted lists that consumes
    both inputs from the front and, when the two front items compare equal,
    takes the one of the first list. *)
Fixpoint merge (l1 : list T) : list T -> list T :=
  fix merge_aux (l2 : list T) : list T :=
    match l1, l2 with
    | [], _ => l2
    | _, [] => l1
    | a :: l1', b :: l2' =>
        if leb a b then a :: merge l1' l2 else b :: merge_aux l2'
    end.

(** The two sorts call [merge] through the member function the header
    declares; they are written over whatever that function is. *)
Section Sorts.

Context (merge_ : list T -> list T -> list T).

(* [fuel] bounds the depth of the recursion. *)
Fixpoint mergeSortRecursive (fuel : nat) (l : list T) : result (list T) :=
  if size l <? 2 then Ok l
  else match fuel with
       | O => Throw OutOfFuel
       | S fuel' =>
           halves ← splitHalves l;
           (* LinkedList<T>& left = halves.front(), right = halves.back() *)
           left ← front halves;
           _ ← back halves;
           sortedLeft ← mergeSortRecursive fuel' left;
           let halves := assign_front sortedLeft halves in
           right ← back halves;
           sortedRight ← mergeSortRecursive fuel' right;
           let halves := assign_back sortedRight halves in
           left ← front halves;
           right ← back halves;
           Ok (merge_ left right)
       end.

(* The body of the loop of mergeSortIterative. *)
Definition iterative_step (workQueue : list (list T)) : result (list (list T)) :=
  left ← front workQueue;
  let workQueue := popFront workQueue in
  right ← front workQueue;
  let workQueue := popFront workQueue in
  let merged := merge_ left right in
  Ok (pushBack merged workQueue).

(* while (workQueue.size() > 1) *)
Fixpoint iterative_loop (fuel : nat) (workQueue : list (list T))
  : result (list (list T)) :=
  if size workQueue >? 1 then
    match fuel with
    | O => Throw OutOfFuel
    | S fuel' => workQueue ← iterative_step workQueue; iterative_loop fuel' workQueue
    end
  else Ok workQueue.

Definition mergeSortIterative (fuel : nat) (l : list T) : result (list T) :=
  if size l <? 2 then Ok l
  else
    workQueue ← explode l;
    workQueue ← iterative_loop fuel workQueue;
    front workQueue.

(* The wrapper returns mergeSortRecursive(); the depth of the recursion never
   exceeds the length of the list. *)
Definition mergeSort (l : list T) : result (list T) :=
  mergeSortRecursive (length l) l.

End Sorts.

(** The order of the elements, as propositions *)

Definition le (a b : T) : Prop := leb a b = true.

(* [a] and [b] compare equal. *)
Definition eqv (a b : T) : bool := leb a b && leb b a.

(* What makes [<=] a total order. *)
Definition total : Prop := ∀ a b, leb a b = true ∨ leb b a = true.
Definition transitive : Prop :=
  ∀ a b c, leb a b = true → leb b c = true → leb a c = true.
Definition antisymmetric : Prop :=
  ∀ a b, leb a b = true → leb b a = true → a = b.

(* What the header asks of merge: of two sorted lists it makes a sorted list
   of all the items of both. *)
Definition merge_contract (merge_ : list T -> list T -> list T) : Prop :=
  ∀ A B, isSorted A = Ok true → isSorted B = Ok true →
    isSorted (merge_ A B) = Ok true ∧ merge_ A B ≡ₚ A ++ B.

End Algorithms.

(** *** Sample element types *)

(* Records compared by their key alone: a total and transitive [<=] under
   which different records compare equal. *)
Definition key_leb (p q : Z * string) : bool := p.1 <=? q.1.

(* The two sorts return the same sequence on [l], each with fuel for as many
   steps as [l] is long. *)
Definition same_output {T : Type} (leb : T -> T -> bool) (l : list T) : Prop :=
  ∃ r, mergeSortRecursive (merge leb) (length l) l = Ok r ∧
       mergeSortIterative (merge leb) (length l) l = Ok r.

End Alg.

(** ** The pointer-level model: proofs *)

Module MemFacts.
Import Mem.

#[local] Set Warnings "-clear-no-such-hyp".

Section Facts.

Context {T : Type}.
Implicit Types (h : gmap loc (@Node T)) (L : LinkedList)
  (cells : list (loc * T)) (p q : loc) (x v : T).

Lemma fresh_None h : h !! fresh (dom h) = None.
Proof. apply not_elem_of_dom, is_fresh. Qed.

Lemma cells_lookup_fst cells i p x :
  cells !! i = Some (p, x) → cells.*1 !! i = Some p.
Proof. intros H. by rewrite list_lookup_fmap, H. Qed.

Lemma cells_elem cells p :
  p ∈ cells.*1 → ∃ i x, cells !! i = Some (p, x).
Proof.
  intros [i Hi]%list_elem_of_lookup.
  rewrite list_lookup_fmap in Hi.
  destruct (cells !! i) as [[p' x]|] eqn:E; simplify_eq/=. eauto.
Qed.

Lemma cells_inj cells i j p x y :
  NoDup cells.*1 → cells !! i = Some (p, x) → cells !! j = Some (p, y) → i = j.
Proof.
  intros Hnd Hi Hj.
  eapply NoDup_lookup; eauto using cells_lookup_fst.
Qed.

Lemma repr_alloc h L cells p :
  repr h L cells → p ∈ cells.*1 → is_Some (h !! p).
Proof.
  intros (_ & _ & _ & _ & Hn) (i & x & Hi)%cells_elem.
  rewrite (Hn _ _ _ Hi). eauto.
Qed.

Lemma repr_frame h h' L cells :
  repr h L cells → (∀ q, q ∈ cells.*1 → h' !! q = h !! q) → repr h' L cells.
Proof.
  intros (Hh & Ht & Hs & Hnd & Hn) Hf. repeat split; try done.
  intros i p x Hi. rewrite Hf; [by apply Hn|].
  apply list_elem_of_lookup. exists i. by eapply cells_lookup_fst.
Qed.

Lemma repr_empty h : repr h empty_list [].
Proof. repeat split; try done. constructor. Qed.

Lemma repr_head_None h L cells : repr h L cells → head_ L = None → cells = [].
Proof. intros (Hh & _) E. rewrite E in Hh. by destruct cells. Qed.

Lemma repr_tail_None h L cells : repr h L cells → tail_ L = None → cells = [].
Proof.
  intros (_ & Ht & _) E. rewrite E in Ht.
  destruct (last cells) eqn:El; [done|]. by apply last_None in El.
Qed.

Lemma repr_nil h L : repr h L [] → L = empty_list.
Proof. destruct L. intros (Hh & Ht & Hs & _). simpl in *. by subst. Qed.

(** Chains that grow or shrink at one end *)

Lemma node_at_snoc_lt cells c i x :
  (S i < length cells)%nat → node_at (cells ++ [c]) i x = node_at cells i x.
Proof.
  intros Hi. unfold node_at. rewrite lookup_app_l by done.
  destruct i; [done|]. by rewrite lookup_app_l by lia.
Qed.

Lemma node_at_snoc_last cells c i x :
  S i = length cells →
  node_at (cells ++ [c]) i x = set_next (node_at cells i x) (Some c.1).
Proof.
  intros Hi. unfold node_at, set_next. simpl.
  rewrite lookup_app_r by lia. replace (S i - length cells)%nat with O by lia.
  destruct i; [done|]. by rewrite lookup_app_l by lia.
Qed.

Lemma node_at_snoc_new cells c x :
  node_at (cells ++ [c]) (length cells) x = mkNode None (fst <$> last cells) x.
Proof.
  unfold node_at. rewrite lookup_ge_None_2 by (rewrite length_app; simpl; lia).
  destruct (length cells) eqn:E.
  - by destruct cells.
  - rewrite lookup_app_l by lia. by rewrite last_lookup, E.
Qed.

Lemma node_at_cons_0 cells c x :
  node_at (c :: cells) 0 x = mkNode (fst <$> head cells) None x.
Proof. unfold node_at. simpl. by rewrite head_lookup. Qed.

Lemma node_at_cons_1 cells c x :
  node_at (c :: cells) 1 x = set_prev (node_at cells 0 x) (Some c.1).
Proof. done. Qed.

Lemma node_at_cons_SS cells c i x :
  node_at (c :: cells) (S (S i)) x = node_at cells (S i) x.
Proof. done. Qed.

Lemma last_snoc_fst cells (c : loc * T) : fst <$> last (cells ++ [c]) = Some c.1.
Proof. by rewrite last_snoc. Qed.

Lemma NoDup_snoc_fst cells p x :
  NoDup cells.*1 → p ∉ cells.*1 → NoDup (cells ++ [(p, x)]).*1.
Proof.
  intros Hnd Hp. rewrite fmap_app. apply NoDup_app. split_and!; [done| |].
  - intros q Hq Hq'. apply list_elem_of_singleton in Hq'. by subst.
  - apply NoDup_singleton.
Qed.

Lemma pushBack_spec h L cells v :
  repr h L cells →
  post h cells (pushBack v h L) (cells ++ [(fresh (dom h), v)]).
Proof.
  intros Hr. pose proof Hr as (Hh & Ht & Hs & Hnd & Hn).
  pose proof (fresh_None h) as Hp. set (p := fresh (dom h)) in *.
  assert (Hpc : p ∉ cells.*1).
  { intros Hin. destruct (repr_alloc _ _ _ _ Hr Hin) as [? E]. congruence. }
  unfold post, pushBack, new_node. fold p.
  destruct (head_ L) as [hd|] eqn:Eh.
  - destruct (last cells) as [[t xt]|] eqn:El; cycle 1.
    { apply last_None in El. subst. discriminate. }
    pose proof El as Ecells. apply last_Some in Ecells as [cells0 ->].
    rewrite Ht. simpl.
    assert (Htl : (cells0 ++ [(t, xt)]) !! length cells0 = Some (t, xt)).
    { by rewrite lookup_app_r, Nat.sub_diag by lia. }
    assert (Htp : t ≠ p).
    { intros ->. apply Hpc. rewrite fmap_app. set_solver. }
    rewrite lookup_insert_ne by done. rewrite (Hn _ _ _ Htl). simpl.
    rewrite lookup_insert_ne by done. rewrite lookup_insert_eq. simpl.
    eexists _, _. split; [done|]. split; [|split; [|split]].
    + split_and!; simpl.
      * rewrite Hh. by destruct cells0.
      * by rewrite last_snoc.
      * rewrite Hs, !length_app. simpl. lia.
      * by apply NoDup_snoc_fst.
      * intros i q x Hi.
        destruct (decide (i = length (cells0 ++ [(t, xt)]))) as [->|Hne].
        { rewrite lookup_app_r, Nat.sub_diag in Hi by lia. simplify_eq/=.
          rewrite lookup_insert_eq, node_at_snoc_new, El. done. }
        assert (Hi' : (cells0 ++ [(t, xt)]) !! i = Some (q, x)).
        { apply lookup_lt_Some in Hi as Hlt. rewrite length_app in Hlt.
          simpl in Hlt. by rewrite lookup_app_l in Hi by lia. }
        assert (Hqp : q ≠ p).
        { intros ->. apply Hpc, list_elem_of_lookup. exists i.
          by eapply cells_lookup_fst. }
        rewrite lookup_insert_ne by done.
        apply lookup_lt_Some in Hi' as Hlt. rewrite length_app in Hlt.
        simpl in Hlt.
        destruct (decide (i = length cells0)) as [->|Hne'].
        { rewrite Htl in Hi'. simplify_eq. rewrite lookup_insert_eq.
          rewrite (node_at_snoc_last (cells0 ++ [_]))
            by (rewrite length_app; simpl; lia).
          done. }
        assert (q ≠ t).
        { intros ->. apply Hne'. eapply cells_inj; eauto. }
        rewrite !lookup_insert_ne by done.
        rewrite (node_at_snoc_lt (cells0 ++ [(t, xt)]))
          by (rewrite length_app; simpl; lia).
        by apply Hn.
    + intros q Hq Hq'. rewrite fmap_app in Hq'.
      rewrite !lookup_insert_ne; [done| | |]; set_solver.
    + intros q Hq Hq'. rewrite fmap_app in Hq'. set_solver.
    + intros q Hq. rewrite fmap_app in Hq.
      apply elem_of_app in Hq as [Hq|Hq]; [by left|].
      right. apply list_elem_of_singleton in Hq. simpl in Hq. by subst.
  - pose proof (repr_head_None _ _ _ Hr Eh) as ->. simpl in *.
    eexists _, _. split; [done|]. split; [|split; [|split]].
    + split_and!; simpl; try done.
      * lia.
      * apply NoDup_singleton.
      * intros [|[|i]] q x Hi; simplify_eq/=. by rewrite lookup_insert_eq.
    + intros q _ Hq. rewrite lookup_insert_ne; [done|]. set_solver.
    + set_solver.
    + intros q Hq. right. apply list_elem_of_singleton in Hq. by subst.
Qed.

Lemma pushFront_spec h L cells v :
  repr h L cells →
  post h cells (pushFront v h L) ((fresh (dom h), v) :: cells).
Proof.
  intros Hr. pose proof Hr as (Hh & Ht & Hs & Hnd & Hn).
  pose proof (fresh_None h) as Hp. set (p := fresh (dom h)) in *.
  assert (Hpc : p ∉ cells.*1).
  { intros Hin. destruct (repr_alloc _ _ _ _ Hr Hin) as [? E]. congruence. }
  unfold post, pushFront, new_node. fold p.
  destruct (head_ L) as [hd|] eqn:Eh.
  - destruct cells as [|[hd' x0] cells1]; [done|]. simpl in Hh. simplify_eq.
    assert (Hhp : hd' ≠ p) by set_solver.
    rewrite lookup_insert_ne by done. rewrite (Hn 0%nat hd' x0) by done. simpl.
    rewrite lookup_insert_ne by done. rewrite lookup_insert_eq. simpl.
    eexists _, _. split; [done|]. split; [|split; [|split]].
    + split_and!; simpl.
      * done.
      * by rewrite Ht.
      * rewrite Hs. simpl. lia.
      * apply NoDup_cons. split; [done|]. done.
      * intros [|[|i]] q x Hi; simpl in Hi.
        { simplify_eq. by rewrite lookup_insert_eq. }
        { simplify_eq. rewrite lookup_insert_ne by done.
          by rewrite lookup_insert_eq. }
        assert (q ≠ p).
        { intros ->. apply Hpc. apply list_elem_of_lookup. exists (S i).
          by eapply cells_lookup_fst. }
        assert (q ≠ hd').
        { intros ->.
          assert (S i = 0%nat) by (eapply cells_inj; eauto). lia. }
        rewrite !lookup_insert_ne by done. rewrite node_at_cons_SS.
        by apply (Hn (S i)).
    + intros q Hq Hq'. rewrite !lookup_insert_ne; [done| | |]; set_solver.
    + set_solver.
    + intros q Hq. apply elem_of_cons in Hq as [->|Hq]; [by right|by left].
  - pose proof (repr_head_None _ _ _ Hr Eh) as ->. simpl in *.
    eexists _, _. split; [done|]. split; [|split; [|split]].
    + split_and!; simpl; try done.
      * lia.
      * apply NoDup_singleton.
      * intros [|[|i]] q x Hi; simplify_eq/=. by rewrite lookup_insert_eq.
    + intros q _ Hq. rewrite lookup_insert_ne; [done|]. set_solver.
    + set_solver.
    + intros q Hq. right. apply list_elem_of_singleton in Hq. by subst.
Qed.

Lemma node_at_last_next cells i x a :
  S i = length cells →
  set_next (set_next (node_at cells i x) a) None = node_at cells i x.
Proof.
  intros Hi. unfold set_next, node_at. simpl.
  by rewrite lookup_ge_None_2 by lia.
Qed.

Lemma popBack_nil h L : repr h L [] → popBack h L = Ok (h, L).
Proof. intros ->%repr_nil. done. Qed.

Lemma popBack_spec h L cells c :
  repr h L (cells ++ [c]) → post h (cells ++ [c]) (popBack h L) cells.
Proof.
  intros Hr. pose proof Hr as (Hh & Ht & Hs & Hnd & Hn).
  destruct c as [t xt].
  assert (Htl : (cells ++ [(t, xt)]) !! length cells = Some (t, xt)).
  { by rewrite lookup_app_r, Nat.sub_diag by lia. }
  unfold post, popBack.
  destruct (head_ L) as [hd|] eqn:Eh; cycle 1.
  { by destruct cells. }
  rewrite Ht, last_snoc. simpl. rewrite (Hn _ _ _ Htl). simpl.
  rewrite fmap_app in Hnd. apply NoDup_app in Hnd as (Hnd0 & Hdisj & _).
  assert (Htc : t ∉ cells.*1).
  { intros Hin. apply (Hdisj _ Hin). set_solver. }
  destruct (length cells) as [|j] eqn:Elen.
  - destruct cells; [|done]. simpl in *.
    rewrite decide_False by lia.
    eexists _, _. split; [done|]. split; [|split; [|split]].
    + replace (size_ L - 1) with 0 by lia. apply repr_empty.
    + intros q Hq _. rewrite lookup_delete_ne; [done|]. set_solver.
    + intros q Hq _. assert (q = t) as -> by set_solver.
      apply lookup_delete_eq.
    + set_solver.
  - destruct (last cells) as [[t' x']|] eqn:El; cycle 1.
    { apply last_None in El. by subst. }
    pose proof El as El'. rewrite last_lookup, Elen in El'. simpl in El'.
    rewrite lookup_app_l by lia. rewrite El'. simpl.
    assert (Ht' : (cells ++ [(t, xt)]) !! j = Some (t', x')).
    { by rewrite lookup_app_l by lia. }
    rewrite (Hn _ _ _ Ht').
    assert (t' ≠ t).
    { intros ->. apply Htc. apply list_elem_of_lookup. exists j.
      by eapply cells_lookup_fst. }
    simpl. eexists _, _. split; [done|]. split; [|split; [|split]].
    + split_and!; simpl.
      * rewrite Hh. destruct cells; [done|]. done.
      * by rewrite El.
      * rewrite Hs, length_app. simpl. lia.
      * done.
      * intros i q x Hi.
        assert (q ≠ t).
        { intros ->. apply Htc. apply list_elem_of_lookup. exists i.
          by eapply cells_lookup_fst. }
        rewrite lookup_delete_ne by done.
        apply lookup_lt_Some in Hi as Hlt.
        assert (Hi' : (cells ++ [(t, xt)]) !! i = Some (q, x)).
        { by rewrite lookup_app_l by lia. }
        destruct (decide (i = j)) as [->|Hne].
        { simplify_eq. rewrite lookup_insert_eq. f_equal.
          rewrite node_at_snoc_last by lia.
          by rewrite node_at_last_next by lia. }
        assert (q ≠ t').
        { intros ->. apply Hne. eapply cells_inj; eauto. }
        rewrite lookup_insert_ne by done.
        rewrite (Hn _ _ _ Hi'). by rewrite node_at_snoc_lt by lia.
    + intros q Hq _. rewrite fmap_app in Hq.
      rewrite lookup_delete_ne, lookup_insert_ne; [done| |]; [|set_solver].
      intros ->. apply Hq. apply elem_of_app. left.
      apply list_elem_of_lookup. exists j. by eapply cells_lookup_fst.
    + intros q Hq Hq'. rewrite fmap_app in Hq.
      assert (q = t) as -> by set_solver. apply lookup_delete_eq.
    + intros q Hq. left. rewrite fmap_app. set_solver.
Qed.

Lemma popFront_nil h L : repr h L [] → popFront h L = Ok (h, L).
Proof. intros ->%repr_nil. done. Qed.

Lemma popFront_spec h L cells c :
  repr h L (c :: cells) → post h (c :: cells) (popFront h L) cells.
Proof.
  intros Hr. pose proof Hr as (Hh & Ht & Hs & Hnd & Hn).
  destruct c as [hd x0]. simpl in Hh, Hnd.
  apply NoDup_cons in Hnd as [Hhc Hnd0].
  unfold post, popFront. rewrite Hh. simpl.
  rewrite (Hn 0%nat hd x0) by done. simpl.
  destruct cells as [|[hd' x1] cells1]; simpl.
  - simpl in Hs. rewrite decide_False by lia.
    eexists _, _. split; [done|]. split; [|split; [|split]].
    + replace (size_ L - 1) with 0 by lia. apply repr_empty.
    + intros q Hq _. rewrite lookup_delete_ne; [done|]. set_solver.
    + intros q Hq _. assert (q = hd) as -> by set_solver.
      apply lookup_delete_eq.
    + set_solver.
  - rewrite (Hn 1%nat hd' x1) by done. simpl.
    assert (hd' ≠ hd) by set_solver.
    eexists _, _. split; [done|]. split; [|split; [|split]].
    + split_and!; simpl.
      * done.
      * by rewrite Ht.
      * rewrite Hs. simpl. lia.
      * done.
      * intros i q x Hi.
        assert (q ≠ hd).
        { intros ->. apply Hhc. apply list_elem_of_lookup. exists i.
          by eapply cells_lookup_fst. }
        rewrite lookup_delete_ne by done.
        destruct i as [|i].
        { simpl in Hi. simplify_eq. by rewrite lookup_insert_eq. }
        assert (q ≠ hd').
        { intros ->.
          assert (S i = 0%nat) by (eapply (cells_inj ((hd', x1) :: cells1)); eauto).
          lia. }
        rewrite lookup_insert_ne by done.
        by rewrite (Hn (S (S i)) q x).
    + intros q Hq Hq'.
      rewrite lookup_delete_ne, lookup_insert_ne; [done| |]; set_solver.
    + intros q Hq Hq'. assert (q = hd) as -> by set_solver.
      apply lookup_delete_eq.
    + intros q Hq. left. set_solver.
Qed.

Lemma post_trans h h1 L1 c1 c2 c3 r :
  post h c1 (Ok (h1, L1)) c2 → post h1 c2 r c3 → post h c1 r c3.
Proof.
  intros (? & ? & [= <- <-] & Hr1 & Hf1 & Hd1 & Hg1)
         (h2 & L2 & -> & Hr2 & Hf2 & Hd2 & Hg2).
  exists h2, L2. split_and!; [done..| | |].
  - intros q Hq1 Hq3. destruct (decide (q ∈ c2.*1)) as [Hq2|Hq2].
    + rewrite (Hd2 _ Hq2 Hq3). by destruct (Hg1 _ Hq2).
    + by rewrite Hf2, Hf1.
  - intros q Hq1 Hq3. destruct (decide (q ∈ c2.*1)) as [Hq2|Hq2].
    + by apply Hd2.
    + rewrite Hf2 by done. by apply Hd1.
  - intros q Hq3. destruct (Hg2 _ Hq3) as [Hq2|Hq2].
    + by apply Hg1.
    + destruct (decide (q ∈ c1.*1)) as [Hq1|Hq1]; [by left|right].
      destruct (decide (q ∈ c2.*1)) as [Hq2'|Hq2'].
      * by destruct (Hg1 _ Hq2').
      * by rewrite <- Hf1.
Qed.

Lemma post_refl h L cells : repr h L cells → post h cells (Ok (h, L)) cells.
Proof. intros Hr. exists h, L. split_and!; try done. by left. Qed.

Lemma clear_loop_spec cells : ∀ fuel h L,
  repr h L cells → (length cells ≤ fuel)%nat →
  post h cells (clear_loop fuel h L) [].
Proof.
  induction cells as [|c cells IH] using rev_ind; intros fuel h L Hr Hfuel.
  - pose proof (repr_nil _ _ Hr) as ->. destruct fuel; by apply post_refl.
  - rewrite length_app in Hfuel. simpl in Hfuel.
    destruct fuel as [|fuel]; [lia|]. simpl.
    destruct (head_ L) eqn:Eh.
    2:{ apply (repr_head_None _ _ _ Hr) in Eh. by destruct cells. }
    pose proof (popBack_spec _ _ _ _ Hr) as Hpop.
    pose proof Hpop as (h1 & L1 & Epop & Hr1 & _).
    rewrite Epop in Hpop |- *. simpl.
    eapply post_trans; [exact Hpop|]. apply IH; [done|lia].
Qed.

Lemma repr_length_le h L cells : repr h L cells → (length cells ≤ base.size h)%nat.
Proof.
  intros (_ & _ & _ & Hnd & Hn).
  rewrite <- (length_fmap fst). rewrite <- size_dom.
  rewrite <- (size_list_to_set (C:=gset loc)) by done.
  apply subseteq_size. intros q Hq. apply elem_of_list_to_set in Hq.
  apply elem_of_dom. apply cells_elem in Hq as (i & x & Hi).
  rewrite (Hn _ _ _ Hi). eauto.
Qed.

Lemma clear_spec h L cells : repr h L cells → post h cells (clear h L) [].
Proof.
  intros Hr. unfold clear.
  pose proof (repr_length_le _ _ _ Hr) as Hlen.
  pose proof (clear_loop_spec cells (S (base.size h)) h L Hr ltac:(lia)) as Hc.
  destruct Hc as (h' & L' & E & Hr' & Hrest). rewrite E. simpl.
  pose proof (repr_nil _ _ Hr') as ->.
  destruct (decide _) as [Hne|_]; [done|]. by exists h', empty_list.
Qed.

(* The fuel of clear is never the reason it stops: a round of the loop that
   returns has deleted a node. *)
Lemma popBack_shrinks h L h' L' :
  is_Some (head_ L) → popBack h L = Ok (h', L') →
  (base.size h' < base.size h)%nat.
Proof.
  intros [hd Hhd]. unfold popBack. rewrite Hhd.
  destruct (tail_ L) as [t|]; [|done]. simpl.
  destruct (h !! t) as [n|] eqn:Et; [|done]. simpl.
  assert (base.size h ≠ 0%nat) as Hpos by by eapply map_size_ne_0_lookup_2.
  destruct (prev n) as [nt|].
  - destruct (h !! nt) as [m|] eqn:Ent; [|done]. simpl. intros [= <- <-].
    rewrite map_size_delete_Some.
    + rewrite map_size_insert_Some by eauto. lia.
    + destruct (decide (nt = t)) as [->|Hne].
      * rewrite lookup_insert_eq. eauto.
      * rewrite lookup_insert_ne by done. eauto.
  - destruct (decide _); [done|]. intros [= <- <-].
    rewrite map_size_delete_Some by eauto. lia.
Qed.

Lemma clear_loop_fuel : ∀ fuel h L,
  (base.size h < fuel)%nat → clear_loop fuel h L ≠ Throw OutOfFuel.
Proof.
  induction fuel as [|fuel IH]; intros h L Hf; [lia|]. simpl.
  destruct (head_ L) as [hd|] eqn:Hhd; [|done].
  destruct (popBack h L) as [[h' L']|e] eqn:E; simpl.
  - apply IH. apply popBack_shrinks in E; [lia|]. rewrite Hhd. eauto.
  - unfold popBack in E. rewrite Hhd in E.
    destruct (tail_ L) as [t|]; [|by simplify_eq/=]. simpl in E.
    destruct (h !! t) as [n|]; [|by simplify_eq/=]. simpl in E.
    destruct (prev n) as [nt|].
    + destruct (h !! nt); by simplify_eq/=.
    + destruct (decide _); by simplify_eq/=.
Qed.

Lemma clear_fuel h L : clear h L ≠ Throw OutOfFuel.
Proof.
  unfold clear.
  pose proof (clear_loop_fuel (S (base.size h)) h L ltac:(lia)) as H.
  destruct (clear_loop _ h L) as [[h' L']|e]; simpl; [|congruence].
  by destruct (decide _).
Qed.

(** Member functions called on an object of the store *)

Implicit Types (s : @state T) (own : gmap oid (list (loc * T))).

Lemma owns_lookup s own o L :
  owns s own → objs s !! o = Some L →
  ∃ cells, own !! o = Some cells ∧ repr (nodes s) L cells.
Proof.
  intros (Hdom & Hobj & _) HL.
  destruct (proj2 (Hdom o)) as [cells Hc]; [by eauto|].
  exists cells. split; [done|]. by eapply Hobj.
Qed.

Lemma owns_alloc s own o cells q :
  owns s own → own !! o = Some cells → q ∈ cells.*1 → is_Some (nodes s !! q).
Proof.
  intros (Hdom & Hobj & _) Hc Hq.
  destruct (proj1 (Hdom o)) as [L HL]; [by eauto|].
  eapply repr_alloc; [|done]. by eapply Hobj.
Qed.

Lemma call_spec s own this L cells m cells' :
  owns s own → objs s !! this = Some L → own !! this = Some cells →
  post (nodes s) cells (m (nodes s) L) cells' →
  ∃ h' L', m (nodes s) L = Ok (h', L') ∧
    call this m s = Ok (mkState h' (<[this := L']> (objs s))) ∧
    repr h' L' cells' ∧
    owns (mkState h' (<[this := L']> (objs s))) (<[this := cells']> own) ∧
    (∀ q, q ∉ cells.*1 → q ∉ cells'.*1 → h' !! q = nodes s !! q).
Proof.
  intros Hown HL Hc (h' & L' & Em & Hr' & Hf & Hd & Hg).
  pose proof Hown as (Hdom & Hobj & Hdisj).
  exists h', L'. split; [done|]. split.
  { unfold call. rewrite HL. simpl. by rewrite Em. }
  split; [done|]. split; [|done].
  assert (Hother : ∀ o co q, o ≠ this → own !! o = Some co → q ∈ co.*1 →
            (q ∉ cells.*1) ∧ (q ∉ cells'.*1)).
  { intros o co q Ho Hco Hq.
    assert (Hqc : q ∉ cells.*1).
    { intros Hq'. by apply (Hdisj o this co cells Ho Hco Hc q). }
    split; [done|]. intros Hq'. destruct (Hg _ Hq') as [?|Hnone]; [done|].
    destruct (owns_alloc _ _ _ _ _ Hown Hco Hq). congruence. }
  split_and!; simpl.
  - intros o. destruct (decide (o = this)) as [->|Ho].
    + rewrite !lookup_insert_eq. split; eauto.
    + rewrite !lookup_insert_ne by done. apply Hdom.
  - intros o Lo co HLo Hco. destruct (decide (o = this)) as [->|Ho].
    + rewrite lookup_insert_eq in HLo. rewrite lookup_insert_eq in Hco.
      by simplify_eq.
    + rewrite lookup_insert_ne in HLo by done.
      rewrite lookup_insert_ne in Hco by done.
      eapply repr_frame; [by eapply Hobj|]. intros q Hq.
      destruct (Hother o co q) as [??]; eauto.
  - intros o1 o2 c1 c2 Hne H1 H2.
    destruct (decide (o1 = this)) as [->|Ho1];
      destruct (decide (o2 = this)) as [->|Ho2]; [done| | |].
    + rewrite lookup_insert_eq in H1. rewrite lookup_insert_ne in H2 by done.
      simplify_eq. intros q Hq1 Hq2.
      destruct (Hother o2 c2 q Ho2 H2 Hq2) as [_ Hn]. by apply Hn.
    + rewrite lookup_insert_eq in H2. rewrite lookup_insert_ne in H1 by done.
      simplify_eq. intros q Hq1 Hq2.
      destruct (Hother o1 c1 q Ho1 H1 Hq1) as [_ Hn]. by apply Hn.
    + rewrite lookup_insert_ne in H1 by done.
      rewrite lookup_insert_ne in H2 by done. by apply (Hdisj o1 o2).
Qed.

Lemma owns_node s own o co i p x :
  owns s own → own !! o = Some co → co !! i = Some (p, x) →
  nodes s !! p = Some (node_at co i x).
Proof.
  intros (Hdom & Hobj & _) Hco Hi.
  destruct (proj1 (Hdom o)) as [L HL]; [by eauto|].
  destruct (Hobj _ _ _ HL Hco) as (_ & _ & _ & _ & Hn). by apply Hn.
Qed.

Lemma call_clear_spec s own this :
  owns s own → is_Some (objs s !! this) →
  ∃ h', call this clear s = Ok (mkState h' (<[this := empty_list]> (objs s))) ∧
    owns (mkState h' (<[this := empty_list]> (objs s))) (<[this := []]> own).
Proof.
  intros Hown [L HL].
  destruct (owns_lookup _ _ _ _ Hown HL) as (cells & Hc & Hr).
  destruct (call_spec s own this L cells clear [] Hown HL Hc
              (clear_spec _ _ _ Hr)) as (h' & L' & _ & E & Hr' & Hown' & _).
  apply repr_nil in Hr' as ->. by exists h'.
Qed.

(* The copy loop of operator=, when [other] is another object: it appends
   the data of [other], from position [i] on, to [this]. *)
Lemma assign_loop_spec this other co (Hne : this ≠ other) :
  ∀ n i s own ci fuel,
    owns s own → own !! this = Some ci → own !! other = Some co →
    (i + n = length co)%nat → (n ≤ fuel)%nat →
    ∃ s' c', assign_loop fuel this (fst <$> co !! i) s = Ok s' ∧
      owns s' (<[this := c']> own) ∧ c'.*2 = ci.*2 ++ drop i co.*2.
Proof.
  induction n as [|n IH]; intros i s own ci fuel Hown Hci Hco Hlen Hfuel.
  - rewrite lookup_ge_None_2 by lia. exists s, ci.
    rewrite drop_ge by (rewrite length_fmap; lia).
    rewrite insert_id by done. rewrite app_nil_r. by destruct fuel.
  - destruct (lookup_lt_is_Some_2 co i) as [[p x] Hi]; [lia|].
    destruct fuel as [|fuel]; [lia|]. rewrite Hi. simpl.
    rewrite (owns_node _ _ _ _ _ _ _ Hown Hco Hi). simpl.
    destruct (proj1 (proj1 Hown this)) as [L HL]; [by eauto|].
    pose proof (proj1 (proj2 Hown) _ _ _ HL Hci) as Hr.
    destruct (call_spec s own this L ci (pushBack x) _ Hown HL Hci
                (pushBack_spec _ _ _ x Hr)) as (h1 & L1 & _ & E & _ & Hown1 & _).
    rewrite E. simpl.
    assert (Hco1 : <[this := ci ++ [(fresh (dom (nodes s)), x)]]> own !! other
                   = Some co) by by rewrite lookup_insert_ne.
    pose proof (owns_node _ _ _ _ _ _ _ Hown1 Hco1 Hi) as Hp1.
    simpl in Hp1. rewrite Hp1. simpl.
    destruct (IH (S i) _ _ (ci ++ [(fresh (dom (nodes s)), x)]) fuel Hown1)
      as (s' & c' & E' & Hown' & Hdata); [by rewrite lookup_insert_eq|done|lia..|].
    exists s', c'. split; [done|]. rewrite insert_insert_eq in Hown'.
    split; [done|]. rewrite Hdata, fmap_app, <- app_assoc. simpl.
    f_equal. symmetry. apply drop_S. by rewrite list_lookup_fmap, Hi.
Qed.

Lemma operator_assign_spec s own this other co :
  this ≠ other → owns s own → is_Some (objs s !! this) →
  own !! other = Some co →
  ∃ s' c', operator_assign this other s = Ok s' ∧
    owns s' (<[this := c']> own) ∧ c'.*2 = co.*2.
Proof.
  intros Hne Hown Hthis Hco.
  destruct (call_clear_spec _ _ _ Hown Hthis) as (h1 & E & Hown1).
  unfold operator_assign. rewrite E. simpl.
  rewrite lookup_insert_ne by done.
  destruct (proj1 (proj1 Hown other)) as [Lo HLo]; [by eauto|].
  rewrite HLo. simpl.
  pose proof (proj1 (proj2 Hown) _ _ _ HLo Hco) as Hro.
  assert (Hco1 : <[this := []]> own !! other = Some co)
    by by rewrite lookup_insert_ne.
  pose proof (proj1 (proj2 Hown1) other Lo co) as Hro1. simpl in Hro1.
  rewrite lookup_insert_ne in Hro1 by done. specialize (Hro1 HLo Hco1).
  pose proof (repr_length_le _ _ _ Hro1) as Hle.
  destruct (assign_loop_spec this other co Hne (length co) 0 _ _ []
              (S (base.size h1)) Hown1) as (s' & c' & E' & Hown' & Hdata);
    [by rewrite lookup_insert_eq|done|lia|lia|].
  destruct Hro as (Hh & _). rewrite Hh, head_lookup.
  exists s', c'. split; [done|]. rewrite insert_insert_eq in Hown'.
  split; [done|]. by rewrite Hdata, drop_0.
Qed.

Lemma operator_assign_self s own this :
  owns s own → is_Some (objs s !! this) →
  ∃ h', operator_assign this this s
          = Ok (mkState h' (<[this := empty_list]> (objs s))) ∧
    owns (mkState h' (<[this := empty_list]> (objs s))) (<[this := []]> own).
Proof.
  intros Hown Hthis.
  destruct (call_clear_spec _ _ _ Hown Hthis) as (h1 & E & Hown1).
  exists h1. split; [|done].
  unfold operator_assign. rewrite E. simpl. by rewrite lookup_insert_eq.
Qed.

(** Well-formed lists pass the checks of the class *)

Lemma forward_loop_spec h L cells : repr h L cells →
  ∀ n i acc fuel, (i + n = length cells)%nat → (n ≤ fuel)%nat →
    forward_loop fuel h (fst <$> cells !! i) acc = Ok (acc ++ drop i cells.*1).
Proof.
  intros (_ & _ & _ & _ & Hn). induction n as [|n IH]; intros i acc fuel Hi Hf.
  - rewrite lookup_ge_None_2 by lia.
    rewrite drop_ge by (rewrite length_fmap; lia).
    rewrite app_nil_r. by destruct fuel.
  - destruct (lookup_lt_is_Some_2 cells i) as [[p x] Hp]; [lia|].
    destruct fuel as [|fuel]; [lia|]. rewrite Hp. simpl.
    rewrite (Hn _ _ _ Hp). simpl. rewrite IH by lia.
    rewrite <- app_assoc. simpl. do 2 f_equal. symmetry.
    apply drop_S. by rewrite list_lookup_fmap, Hp.
Qed.

Lemma count_loop_spec h L cells : repr h L cells →
  ∀ n i c fuel, (i + n = length cells)%nat → (n ≤ fuel)%nat →
    count_loop fuel h (fst <$> cells !! i) c = Ok (c + Z.of_nat n).
Proof.
  intros (_ & _ & _ & _ & Hn). induction n as [|n IH]; intros i c fuel Hi Hf.
  - rewrite lookup_ge_None_2 by lia. destruct fuel; simpl; f_equal; lia.
  - destruct (lookup_lt_is_Some_2 cells i) as [[p x] Hp]; [lia|].
    destruct fuel as [|fuel]; [lia|]. rewrite Hp. simpl.
    rewrite (Hn _ _ _ Hp). simpl. rewrite IH by lia. f_equal. lia.
Qed.

Lemma reverse_loop_spec h L cells : repr h L cells →
  ∀ i acc fuel, (i < length cells)%nat → (i < fuel)%nat →
    reverse_loop fuel h (fst <$> cells !! i) acc
    = Ok (take (S i) cells.*1 ++ acc).
Proof.
  intros (_ & _ & _ & _ & Hn). induction i as [|i IH]; intros acc fuel Hi Hf.
  - destruct (lookup_lt_is_Some_2 cells 0) as [[p x] Hp]; [lia|].
    destruct fuel as [|fuel]; [lia|]. rewrite Hp. simpl.
    rewrite (Hn _ _ _ Hp). simpl.
    destruct cells as [|[??] ?]; simplify_eq/=. by destruct fuel.
  - destruct (lookup_lt_is_Some_2 cells (S i)) as [[p x] Hp]; [lia|].
    destruct fuel as [|fuel]; [lia|]. rewrite Hp. simpl.
    rewrite (Hn _ _ _ Hp). simpl. rewrite IH by lia.
    f_equal. rewrite (take_S_r _ (S i) p) by by rewrite list_lookup_fmap, Hp.
    by rewrite <- app_assoc.
Qed.

Lemma repr_links h L cells : repr h L cells → links_consistent h cells.*1.
Proof.
  intros (_ & _ & _ & _ & Hn) p n (i & x & Hi)%cells_elem Hp.
  rewrite (Hn _ _ _ Hi) in Hp. simplify_eq. simpl. split.
  - intros q Hq. destruct (cells !! S i) as [[q' y]|] eqn:Hi'; simplify_eq/=.
    eexists. split; [by apply Hn|]. simpl. by rewrite Hi.
  - intros q Hq. destruct i as [|j]; [done|].
    destruct (cells !! j) as [[q' y]|] eqn:Hj; simplify_eq/=.
    eexists. split; [by apply Hn|]. simpl. by rewrite Hi.
Qed.

Lemma repr_invariant h L cells : repr h L cells → invariant h L.
Proof.
  intros Hr. pose proof Hr as (Hh & Ht & Hs & Hnd & Hn).
  pose proof (repr_length_le _ _ _ Hr) as Hle.
  assert (Hfwd : forward_loop (S (base.size h)) h (head_ L) [] = Ok cells.*1).
  { rewrite Hh, head_lookup.
    rewrite (forward_loop_spec _ _ _ Hr (length cells)) by lia.
    by rewrite drop_0. }
  assert (Hrev : reverse_loop (S (base.size h)) h (tail_ L) [] = Ok cells.*1).
  { rewrite Ht, last_lookup. destruct (length cells) as [|n] eqn:E.
    - by destruct cells.
    - change (pred (S n)) with n.
      rewrite (reverse_loop_spec _ _ _ Hr) by lia.
      rewrite app_nil_r, take_ge; [done|]. rewrite length_fmap. lia. }
  exists cells.*1. split_and!; try done.
  - by rewrite length_fmap.
  - rewrite Hh, Ht. destruct cells as [|c cells0]; [done|].
    split; [done|]. intros E. exfalso.
    destruct (last (c :: cells0)) eqn:El; [done|]. by apply last_None in El.
  - rewrite Hh, Hs. destruct cells; simpl; split; try done; lia.
  - by eapply repr_links.
  - unfold assertCorrectSize. rewrite Hh, head_lookup.
    rewrite (count_loop_spec _ _ _ Hr (length cells)) by lia. simpl.
    by rewrite decide_False by lia.
  - unfold assertPrevLinks. rewrite Hfwd, Hrev. simpl.
    by rewrite bool_decide_true.
Qed.

Lemma wf_state_invariant s :
  wf_state s → ∀ o L, objs s !! o = Some L → invariant (nodes s) L.
Proof.
  intros [own Hown] o L HL.
  destruct (owns_lookup _ _ _ _ Hown HL) as (cells & _ & Hr).
  by eapply repr_invariant.
Qed.

(** Every action keeps the store well-formed *)

Lemma owns_init : owns (@init T) ∅.
Proof.
  split_and!.
  - intros o. unfold init. simpl. rewrite !lookup_empty. done.
  - intros o L cells HL. simpl in HL. by rewrite lookup_empty in HL.
  - intros o1 o2 c1 c2 _ H1. by rewrite lookup_empty in H1.
Qed.

Lemma owns_fresh_None s own : owns s own → own !! fresh (dom (objs s)) = None.
Proof.
  intros (Hdom & _). apply eq_None_not_Some. intros H%Hdom.
  apply elem_of_dom in H. by apply is_fresh in H.
Qed.

Lemma construct_owns s own :
  owns s own → owns (construct s).2 (<[(construct s).1 := []]> own).
Proof.
  intros Hown. pose proof (owns_fresh_None _ _ Hown) as Hf.
  destruct Hown as (Hdom & Hobj & Hdisj). unfold construct. simpl.
  set (this := fresh (dom (objs s))) in *. split_and!; simpl.
  - intros o. destruct (decide (o = this)) as [->|Ho].
    + rewrite !lookup_insert_eq. split; eauto.
    + rewrite !lookup_insert_ne by done. apply Hdom.
  - intros o L cells HL Hc. destruct (decide (o = this)) as [->|Ho].
    + rewrite lookup_insert_eq in HL. rewrite lookup_insert_eq in Hc.
      simplify_eq. apply repr_empty.
    + rewrite lookup_insert_ne in HL by done.
      rewrite lookup_insert_ne in Hc by done. by eapply Hobj.
  - intros o1 o2 c1 c2 Hne H1 H2.
    destruct (decide (o1 = this)) as [->|Ho1].
    { rewrite lookup_insert_eq in H1. simplify_eq. set_solver. }
    destruct (decide (o2 = this)) as [->|Ho2].
    { rewrite lookup_insert_eq in H2. simplify_eq. set_solver. }
    rewrite lookup_insert_ne in H1 by done.
    rewrite lookup_insert_ne in H2 by done. by apply (Hdisj o1 o2).
Qed.

Lemma copy_construct_spec s own other co :
  owns s own → own !! other = Some co →
  ∃ this s' c', copy_construct other s = Ok (this, s') ∧
    own !! this = None ∧ owns s' (<[this := c']> own) ∧ c'.*2 = co.*2.
Proof.
  intros Hown Hco. pose proof (owns_fresh_None _ _ Hown) as Hf.
  pose proof (construct_owns _ _ Hown) as Hown0.
  unfold copy_construct. destruct (construct s) as [this s0] eqn:E.
  assert (this = fresh (dom (objs s))) as Hthis by by inversion E.
  simpl in Hown0. rewrite <- Hthis in Hf.
  assert (Hne : this ≠ other) by congruence.
  destruct (operator_assign_spec s0 _ this other co Hne Hown0)
    as (s' & c' & E' & Hown' & Hdata).
  { inversion E. simpl. rewrite lookup_insert_eq. eauto. }
  { by rewrite lookup_insert_ne. }
  rewrite E'. simpl. exists this, s', c'. split_and!; try done.
  by rewrite insert_insert_eq in Hown'.
Qed.

Lemma destroy_spec s own this :
  owns s own → is_Some (objs s !! this) →
  ∃ s', destroy this s = Ok s' ∧ owns s' (delete this own).
Proof.
  intros Hown Hthis.
  destruct (call_clear_spec _ _ _ Hown Hthis) as (h1 & E & Hown1).
  unfold destroy. rewrite E. simpl. eexists. split; [done|].
  destruct Hown1 as (Hdom & Hobj & Hdisj). simpl in *. split_and!; simpl.
  - intros o. destruct (decide (o = this)) as [->|Ho].
    + rewrite !lookup_delete_eq. split; intros []; done.
    + rewrite !lookup_delete_ne by done. specialize (Hdom o).
      rewrite lookup_insert_ne in Hdom by done. exact Hdom.
  - intros o L cells HL Hc. destruct (decide (o = this)) as [->|Ho].
    + by rewrite lookup_delete_eq in HL.
    + rewrite lookup_delete_ne in HL by done.
      rewrite lookup_delete_ne in Hc by done.
      apply (Hobj o); [done|by rewrite lookup_insert_ne].
  - intros o1 o2 c1 c2 Hne H1 H2.
    apply lookup_delete_Some in H1 as [??]. apply lookup_delete_Some in H2 as [??].
    apply (Hdisj o1 o2); [done|by rewrite lookup_insert_ne..].
Qed.

Lemma call_wf s this m :
  wf_state s → is_Some (objs s !! this) →
  (∀ L cells, repr (nodes s) L cells → ∃ cells', post (nodes s) cells (m (nodes s) L) cells') →
  ∃ s', call this m s = Ok s' ∧ wf_state s'.
Proof.
  intros [own Hown] [L HL] Hm.
  destruct (owns_lookup _ _ _ _ Hown HL) as (cells & Hc & Hr).
  destruct (Hm _ _ Hr) as [cells' Hpost].
  destruct (call_spec _ _ _ _ _ _ _ Hown HL Hc Hpost)
    as (h' & L' & _ & E & _ & Hown' & _).
  eexists. split; [done|]. by eexists.
Qed.

Lemma popBack_post h L cells :
  repr h L cells → ∃ cells', post h cells (popBack h L) cells'.
Proof.
  intros Hr. destruct cells as [|c cells _] using rev_ind.
  - exists []. rewrite (popBack_nil _ _ Hr). by apply post_refl.
  - exists cells. by apply popBack_spec.
Qed.

Lemma popFront_post h L cells :
  repr h L cells → ∃ cells', post h cells (popFront h L) cells'.
Proof.
  intros Hr. destruct cells as [|c cells].
  - exists []. rewrite (popFront_nil _ _ Hr). by apply post_refl.
  - exists cells. by apply popFront_spec.
Qed.

Lemma exec_wf a s :
  wf_state s → defined a s → ∃ s', exec a s = Ok s' ∧ wf_state s'.
Proof.
  intros Hwf Hdef. destruct a as [|other|this|this [v|v| | | |other]]; simpl in *.
  - destruct Hwf as [own Hown]. eexists. split; [done|].
    eexists. by apply construct_owns.
  - destruct Hwf as [own Hown]. destruct Hdef as [Lo HLo].
    destruct (owns_lookup _ _ _ _ Hown HLo) as (co & Hco & _).
    destruct (copy_construct_spec _ _ _ _ Hown Hco)
      as (this & s' & c' & E & _ & Hown' & _).
    rewrite E. simpl. eexists. split; [done|]. by eexists.
  - destruct Hwf as [own Hown].
    destruct (destroy_spec _ _ _ Hown Hdef) as (s' & E & Hown').
    exists s'. split; [done|]. by eexists.
  - apply call_wf; [done..|]. intros L cells Hr. eexists.
    by apply pushFront_spec.
  - apply call_wf; [done..|]. intros L cells Hr. eexists.
    by apply pushBack_spec.
  - apply call_wf; [done..|]. intros L cells Hr. by apply popFront_post.
  - apply call_wf; [done..|]. intros L cells Hr. by apply popBack_post.
  - apply call_wf; [done..|]. intros L cells Hr. eexists. by apply clear_spec.
  - destruct Hwf as [own Hown]. destruct Hdef as [Hthis [Lo HLo]].
    destruct (decide (this = other)) as [->|Hne].
    + destruct (operator_assign_self _ _ _ Hown Hthis) as (h' & E & Hown').
      eexists. split; [done|]. by eexists.
    + destruct (owns_lookup _ _ _ _ Hown HLo) as (co & Hco & _).
      destruct (operator_assign_spec _ _ _ _ _ Hne Hown Hthis Hco)
        as (s' & c' & E & Hown' & _).
      exists s'. split; [done|]. by eexists.
Qed.

Lemma call_Ok_defined s s' this m :
  call this m s = Ok s' → is_Some (objs s !! this).
Proof. unfold call. by destruct (objs s !! this). Qed.

Lemma bind_Ok {A B} (r : result A) (k : A → result B) b :
  r ≫= k = Ok b → ∃ a, r = Ok a ∧ k a = Ok b.
Proof. destruct r; [|done]. simpl. eauto. Qed.

Lemma operator_assign_Ok_defined s s' this other :
  operator_assign this other s = Ok s' →
  is_Some (objs s !! this) ∧ is_Some (objs s !! other).
Proof.
  unfold operator_assign.
  intros (s1 & E1 & (Lo & E2 & _)%bind_Ok)%bind_Ok.
  pose proof (call_Ok_defined _ _ _ _ E1) as Hthis. split; [done|].
  unfold call in E1. destruct Hthis as [L HL]. rewrite HL in E1. simpl in E1.
  destruct (clear (nodes s) L) as [[h' L']|]; simplify_eq/=.
  destruct (decide (other = this)) as [->|Hne]; [by eauto|].
  rewrite lookup_insert_ne in E2 by done.
  destruct (objs s !! other); [by eauto|done].
Qed.

Lemma exec_Ok_wf a s s' : wf_state s → exec a s = Ok s' → wf_state s'.
Proof.
  intros Hwf E.
  assert (Hdef : defined a s → wf_state s').
  { intros Hdef. destruct (exec_wf a s Hwf Hdef) as (s'' & E' & Hwf').
    congruence. }
  destruct a as [|other|this|this [v|v| | | |other]]; simpl in *;
    eauto using call_Ok_defined, operator_assign_Ok_defined.
  - destruct (objs s !! other) as [Lo|] eqn:HLo; [by eauto|].
    clear Hdef. unfold copy_construct in E. simpl in E.
    apply bind_Ok in E as ([this s1] & (s2 & E & [= <- <-])%bind_Ok & [= <-]).
    pose proof (operator_assign_Ok_defined _ _ _ _ E) as [Hthis [Lo' HLo']].
    simpl in HLo'.
    destruct (decide (other = fresh (dom (objs s)))) as [->|Hne].
    + destruct Hwf as [own Hown]. apply construct_owns in Hown.
      destruct (operator_assign_self _ _ _ Hown Hthis) as (h' & E' & Hown').
      simpl in E'. rewrite E' in E. simplify_eq. by eexists.
    + rewrite lookup_insert_ne in HLo' by done. congruence.
  - unfold destroy in E. apply bind_Ok in E as (s1 & E & _).
    eauto using call_Ok_defined.
Qed.

Lemma reachable_wf s : reachable s → wf_state s.
Proof.
  induction 1 as [|s a s' _ IH E].
  - exists ∅. apply owns_init.
  - by eapply exec_Ok_wf.
Qed.

Lemma call_noop s this L m :
  objs s !! this = Some L → m (nodes s) L = Ok (nodes s, L) → call this m s = Ok s.
Proof.
  intros HL Hm. unfold call. rewrite HL. simpl. rewrite Hm. simpl.
  destruct s as [h o]. simpl in *. by rewrite insert_id.
Qed.

Lemma repr_determines h h' L L' cells :
  repr h L cells → repr h' L' cells →
  (∀ q, q ∉ cells.*1 → h' !! q = h !! q) → h' = h ∧ L' = L.
Proof.
  intros (Hh & Ht & Hs & _ & Hn) (Hh' & Ht' & Hs' & _ & Hn') Hf. split.
  - apply map_eq. intros q. destruct (decide (q ∈ cells.*1)) as [Hq|Hq].
    + apply cells_elem in Hq as (i & x & Hi).
      by rewrite (Hn _ _ _ Hi), (Hn' _ _ _ Hi).
    + by apply Hf.
  - destruct L, L'. simpl in *. congruence.
Qed.

Lemma push_pop_restores h L cells v c
    (push pop : gmap loc (@Node T) → LinkedList → result (gmap loc Node * LinkedList)) :
  repr h L cells →
  post h cells (push h L) c →
  (∀ h1 L1, repr h1 L1 c → post h1 c (pop h1 L1) cells) →
  ∃ h1 L1, push h L = Ok (h1, L1) ∧ pop h1 L1 = Ok (h, L).
Proof.
  intros Hr Hpush Hpop.
  pose proof Hpush as (h1 & L1 & E1 & Hr1 & _).
  rewrite E1 in Hpush. specialize (Hpop _ _ Hr1).
  pose proof (post_trans _ _ _ _ _ _ _ Hpush Hpop) as (h2 & L2 & E2 & Hr2 & Hf & _).
  exists h1, L1. split; [done|]. rewrite E2.
  destruct (repr_determines _ _ _ _ _ Hr Hr2) as [-> ->]; [|done].
  intros q Hq. by apply Hf.
Qed.

Lemma call_call s this m1 m2 L h1 L1 h2 L2 :
  objs s !! this = Some L →
  m1 (nodes s) L = Ok (h1, L1) → m2 h1 L1 = Ok (h2, L2) →
  call this m1 s ≫= call this m2
  = Ok (mkState h2 (<[this := L2]> (objs s))).
Proof.
  intros HL E1 E2. unfold call. rewrite HL. simpl. rewrite E1. simpl.
  rewrite lookup_insert_eq. simpl. rewrite E2. simpl.
  by rewrite insert_insert_eq.
Qed.

Lemma reachable_run acts : ∀ s s',
  reachable s → run acts s = Ok s' → reachable s'.
Proof.
  unfold run. induction acts as [|a acts IH] using rev_ind; intros s s' Hs E.
  - simpl in E. by simplify_eq.
  - rewrite foldl_app in E. simpl in E.
    apply bind_Ok in E as (s1 & E1 & E2).
    eapply reach_step; [|exact E2]. by eapply IH.
Qed.

(** C5. After every public operation (construction, copy construction,
    destruction, pushFront, pushBack, popFront, popBack, clear, copy
    assignment) every list of the store satisfies the invariants of the data
    model: walking forward from the head reaches exactly [size_] nodes,
    walking backward from the tail visits the same nodes, head is absent iff
    tail is absent iff the size is 0, and the next and previous links of the
    nodes mirror each other; assertCorrectSize and assertPrevLinks return
    true.  Moreover no operation on existing objects throws. *)
Theorem structural_invariants s :
  reachable s →
  (∀ o L, objs s !! o = Some L → invariant (nodes s) L) ∧
  (∀ a, defined a s →
     ∃ s', exec a s = Ok s' ∧
       ∀ o L, objs s' !! o = Some L → invariant (nodes s') L).
Proof.
  intros Hs. pose proof (reachable_wf _ Hs) as Hwf. split.
  - by apply wf_state_invariant.
  - intros a Hdef. destruct (exec_wf _ _ Hwf Hdef) as (s' & E & Hwf').
    exists s'. split; [done|]. by apply wf_state_invariant.
Qed.

(** C6. On an empty list front() and back() throw the runtime error of the
    empty container, while popFront() and popBack() return normally and leave
    the whole state as it was. *)
Theorem empty_list_behaviour s this L :
  reachable s → objs s !! this = Some L → empty L = true →
  front (nodes s) L = Throw (RuntimeError "front() called on empty LinkedList") ∧
  back (nodes s) L = Throw (RuntimeError "back() called on empty LinkedList") ∧
  exec (Call this PopFront) s = Ok s ∧
  exec (Call this PopBack) s = Ok s.
Proof.
  intros Hs HL He. destruct (reachable_wf _ Hs) as [own Hown].
  destruct (owns_lookup _ _ _ _ Hown HL) as (cells & _ & Hr).
  assert (head_ L = None) as Hh by (unfold empty in He; by destruct (head_ L)).
  pose proof (repr_head_None _ _ _ Hr Hh) as ->.
  pose proof (repr_nil _ _ Hr) as ->. split_and!; try done.
  - by apply (call_noop _ _ empty_list).
  - by apply (call_noop _ _ empty_list).
Qed.

(** C7. pushBack(v) followed at once by popBack() gives back the state from
    before the push (the same nodes, the same head, tail and size), and so
    does pushFront(v) followed by popFront(). *)
Theorem push_pop_identity s this v :
  reachable s → is_Some (objs s !! this) →
  exec (Call this (PushBack v)) s ≫= exec (Call this PopBack) = Ok s ∧
  exec (Call this (PushFront v)) s ≫= exec (Call this PopFront) = Ok s.
Proof.
  intros Hs [L HL]. destruct (reachable_wf _ Hs) as [own Hown].
  destruct (owns_lookup _ _ _ _ Hown HL) as (cells & _ & Hr).
  assert (Hid : mkState (nodes s) (<[this := L]> (objs s)) = s).
  { destruct s as [h o]. simpl in *. by rewrite insert_id. }
  split.
  - change (call this (pushBack v) s ≫= call this popBack = Ok s).
    destruct (push_pop_restores _ _ _ v _ (pushBack v) popBack Hr
                (pushBack_spec _ _ _ v Hr)) as (h1 & L1 & E1 & E2).
    { intros h1 L1 Hr1. by apply popBack_spec. }
    by rewrite (call_call _ _ _ _ _ _ _ _ _ HL E1 E2), Hid.
  - change (call this (pushFront v) s ≫= call this popFront = Ok s).
    destruct (push_pop_restores _ _ _ v _ (pushFront v) popFront Hr
                (pushFront_spec _ _ _ v Hr)) as (h1 & L1 & E1 & E2).
    { intros h1 L1 Hr1. by apply popFront_spec. }
    by rewrite (call_call _ _ _ _ _ _ _ _ _ HL E1 E2), Hid.
Qed.

(** C10. Copy-assigning a list to itself leaves it empty, whatever it held:
    clear() runs first, and the copy loop then starts from the head of the
    list just cleared.  The other objects are not touched. *)
Theorem self_assignment_empties s this L :
  reachable s → objs s !! this = Some L →
  ∃ s', exec (Call this (Assign this)) s = Ok s' ∧
    objs s' !! this = Some empty_list ∧
    holds s' this [] ∧
    (∀ o, o ≠ this → objs s' !! o = objs s !! o).
Proof.
  intros Hs HL. destruct (reachable_wf _ Hs) as [own Hown].
  destruct (operator_assign_self _ _ this Hown) as (h' & E & Hown'); [by eauto|].
  eexists. split; [exact E|]. simpl. split_and!.
  - by rewrite lookup_insert_eq.
  - exists empty_list, []. simpl. rewrite lookup_insert_eq.
    split_and!; try done. apply repr_empty.
  - intros o Ho. by rewrite lookup_insert_ne.
Qed.

(* Assignment from another object does copy: [this] ends up holding the data
   of [other], and [other] keeps it. *)
Lemma assignment_copies s this other xs :
  reachable s → this ≠ other → is_Some (objs s !! this) →
  holds s other xs →
  ∃ s', exec (Call this (Assign other)) s = Ok s' ∧
    holds s' this xs ∧ holds s' other xs.
Proof.
  intros Hs Hne Hthis (Lo & co & HLo & Hro & <-).
  destruct (reachable_wf _ Hs) as [own Hown].
  destruct (owns_lookup _ _ _ _ Hown HLo) as (co' & Hco & Hro').
  assert (co' = co) as ->.
  { destruct Hro as (Hh & _ & Hsz & _ & Hn).
    destruct Hro' as (Hh' & _ & Hsz' & _ & Hn').
    apply list_eq. intros i.
    assert (Hlen : length co' = length co) by lia.
    assert (Hfst : ∀ i, fst <$> co' !! i = fst <$> co !! i).
    { clear i. intros i. induction i as [|i IH].
      - by rewrite <- !head_lookup, <- Hh, <- Hh'.
      - destruct (co' !! i) as [[p x]|] eqn:E1; destruct (co !! i) as [[p' x']|] eqn:E2;
          simplify_eq/=.
        + pose proof (Hn _ _ _ E2) as H1. pose proof (Hn' _ _ _ E1) as H2.
          rewrite H1 in H2. by inversion H2.
        + apply lookup_ge_None in E1, E2.
          by rewrite !lookup_ge_None_2 by lia. }
    specialize (Hfst i).
    destruct (co' !! i) as [[p x]|] eqn:E1; destruct (co !! i) as [[p' x']|] eqn:E2;
      simplify_eq/=; [|done].
    pose proof (Hn _ _ _ E2) as H1. pose proof (Hn' _ _ _ E1) as H2.
    rewrite H1 in H2. by inversion H2. }
  destruct (operator_assign_spec _ _ _ _ _ Hne Hown Hthis Hco)
    as (s' & c' & E & Hown' & Hdata).
  exists s'. split; [done|].
  pose proof Hown' as (Hdom' & Hobj' & _). split.
  - destruct (proj1 (Hdom' this)) as [L' HL']; [rewrite lookup_insert_eq; eauto|].
    exists L', c'. split_and!; [done| |done].
    apply (Hobj' this); [done|by rewrite lookup_insert_eq].
  - destruct (proj1 (Hdom' other)) as [Lo' HLo'];
      [rewrite lookup_insert_ne by done; eauto|].
    exists Lo', co. split_and!; [done| |done].
    apply (Hobj' other); [done|by rewrite lookup_insert_ne].
Qed.

(** The value-level operations of [Alg] are what the member functions do to
    the data of a well-formed list. *)
Lemma refinement h L cells :
  repr h L cells →
  size L = Alg.size cells.*2 ∧
  empty L = Alg.empty cells.*2 ∧
  front h L = Alg.front cells.*2 ∧
  back h L = Alg.back cells.*2 ∧
  (∀ v, ∃ h' L' cells', pushFront v h L = Ok (h', L') ∧
     repr h' L' cells' ∧ cells'.*2 = Alg.pushFront v cells.*2) ∧
  (∀ v, ∃ h' L' cells', pushBack v h L = Ok (h', L') ∧
     repr h' L' cells' ∧ cells'.*2 = Alg.pushBack v cells.*2) ∧
  (∃ h' L' cells', popFront h L = Ok (h', L') ∧
     repr h' L' cells' ∧ cells'.*2 = Alg.popFront cells.*2) ∧
  (∃ h' L' cells', popBack h L = Ok (h', L') ∧
     repr h' L' cells' ∧ cells'.*2 = Alg.popBack cells.*2).
Proof.
  intros Hr. pose proof Hr as (Hh & Ht & Hs & Hnd & Hn). split_and!.
  - unfold size, Alg.size. by rewrite length_fmap.
  - unfold empty. rewrite Hh. by destruct cells.
  - unfold front. rewrite Hh. destruct cells as [|[p x] cells']; [done|].
    simpl. by rewrite (Hn 0%nat p x).
  - unfold back, Alg.back. rewrite Ht, last_lookup.
    rewrite last_lookup, length_fmap, list_lookup_fmap.
    destruct (cells !! pred (length cells)) as [[p x]|] eqn:E; [|done].
    simpl. by rewrite (Hn _ _ _ E).
  - intros v. destruct (pushFront_spec _ _ _ v Hr) as (h' & L' & E & Hr' & _).
    by exists h', L', ((fresh (dom h), v) :: cells).
  - intros v. destruct (pushBack_spec _ _ _ v Hr) as (h' & L' & E & Hr' & _).
    exists h', L', (cells ++ [(fresh (dom h), v)]).
    split_and!; [done..|]. by rewrite fmap_app.
  - destruct cells as [|c cells'].
    + exists h, L, []. by rewrite (popFront_nil _ _ Hr).
    + destruct (popFront_spec _ _ _ _ Hr) as (h' & L' & E & Hr' & _).
      by exists h', L', cells'.
  - destruct cells as [|c cells' _] using rev_ind.
    + exists h, L, []. by rewrite (popBack_nil _ _ Hr).
    + destruct (popBack_spec _ _ _ _ Hr) as (h' & L' & E & Hr' & _).
      exists h', L', cells'. split_and!; [done..|].
      rewrite fmap_app. simpl. unfold Alg.popBack. by rewrite removelast_last.
Qed.

(** equals *)

Context (neqb : T → T → bool).

Lemma equals_loop_chain h : ∀ c1 c2 fuel cur1 cur2,
  chain h cur1 c1 → chain h cur2 c2 → (length c1 ≤ fuel)%nat →
  equals_loop neqb fuel h cur1 cur2 = lockstep neqb c1.*2 c2.*2.
Proof.
  induction c1 as [|[q x] c1 IH]; intros c2 fuel cur1 cur2 H1 H2 Hf; simpl in *.
  - subst. by destruct fuel.
  - destruct H1 as (-> & n & Hq & <- & H1).
    destruct fuel as [|fuel]; [lia|]. simpl.
    destruct c2 as [|[q' y] c2]; simpl in *; [by subst|].
    destruct H2 as (-> & n' & Hq' & <- & H2). rewrite Hq, Hq'. simpl.
    destruct (neqb (data n) (data n')); [done|]. apply IH; [done..|lia].
Qed.

Lemma chain_unique h : ∀ c c' cur, chain h cur c → chain h cur c' → c = c'.
Proof.
  induction c as [|[q x] c IH]; intros [|[q' x'] c'] cur H1 H2; simpl in *;
    try done.
  - destruct H2 as (? & _). congruence.
  - destruct H1 as (? & _). congruence.
  - destruct H1 as (-> & n & Hq & <- & H1).
    destruct H2 as ([= <-] & n' & Hq' & <- & H2). simplify_eq.
    f_equal. by eapply IH.
Qed.

Lemma chain_drop h : ∀ c i cur q x,
  chain h cur c → c !! i = Some (q, x) → chain h (Some q) (drop i c).
Proof.
  induction c as [|[q0 x0] c IH]; intros i cur q x H Hi; [done|].
  destruct H as (-> & n & Hq & <- & H). destruct i as [|i]; simpl in *.
  - simplify_eq. eauto.
  - by eapply IH.
Qed.

Lemma chain_NoDup h : ∀ c cur, chain h cur c → NoDup c.*1.
Proof.
  induction c as [|[q x] c IH]; intros cur H; simpl; [constructor|].
  pose proof H as (-> & n & Hq & <- & H'). apply NoDup_cons. split; [|eauto].
  intros (i & y & Hi)%cells_elem.
  pose proof (chain_drop _ _ _ _ _ _ H' Hi) as Hd.
  pose proof (chain_unique _ _ _ _ H Hd) as E.
  apply (f_equal length) in E. rewrite length_drop in E. simpl in E. lia.
Qed.

Lemma chain_alloc h : ∀ c cur q, chain h cur c → q ∈ c.*1 → is_Some (h !! q).
Proof.
  induction c as [|[q0 x0] c IH]; intros cur q H Hq; simpl in *.
  - by apply elem_of_nil in Hq.
  - destruct H as (-> & n & Hq0 & <- & H).
    apply elem_of_cons in Hq as [->|Hq]; [by eauto|by eapply IH].
Qed.

Lemma chain_length_le h c cur : chain h cur c → (length c ≤ base.size h)%nat.
Proof.
  intros H. rewrite <- (length_fmap fst). rewrite <- size_dom.
  rewrite <- (size_list_to_set (C:=gset loc)) by by eapply chain_NoDup.
  apply subseteq_size. intros q Hq. apply elem_of_list_to_set in Hq.
  apply elem_of_dom. by eapply chain_alloc.
Qed.

Lemma repr_chain h L cells : repr h L cells → chain h (head_ L) cells.
Proof.
  intros (Hh & _ & _ & _ & Hn). rewrite Hh, head_lookup.
  assert (Hgen : ∀ n i, (i + n = length cells)%nat →
            chain h (fst <$> cells !! i) (drop i cells)).
  { induction n as [|n IH]; intros i Hi.
    - rewrite lookup_ge_None_2, drop_ge by lia. done.
    - destruct (lookup_lt_is_Some_2 cells i) as [[p x] Hp]; [lia|].
      rewrite (drop_S _ _ _ Hp), Hp. simpl. split; [done|].
      eexists. split; [by apply Hn|]. split; [done|]. apply IH. lia. }
  specialize (Hgen (length cells) 0%nat). rewrite drop_0 in Hgen. by apply Hgen.
Qed.

Lemma agree_cons x y xs ys :
  agree neqb (x :: xs) (y :: ys) → neqb x y = false ∧ agree neqb xs ys.
Proof.
  intros H. split; [by apply (H 0%nat)|].
  intros i x' y' Hx Hy. by apply (H (S i)).
Qed.

Lemma lockstep_true : ∀ xs ys,
  (length xs ≤ length ys)%nat → agree neqb xs ys → lockstep neqb xs ys = Ok true.
Proof.
  induction xs as [|x xs IH]; intros [|y ys] Hl Ha; simpl in *; try done; [lia|].
  apply agree_cons in Ha as [-> Ha]. apply IH; [lia|done].
Qed.

Lemma lockstep_throw : ∀ xs ys,
  (length ys < length xs)%nat → agree neqb xs ys →
  lockstep neqb xs ys
  = Throw (RuntimeError ("Error in equals: " +:+
             "otherCur missing a node or wrong item count")).
Proof.
  induction xs as [|x xs IH]; intros [|y ys] Hl Ha; simpl in *;
    try done; try lia.
  apply agree_cons in Ha as [-> Ha]. apply IH; [lia|done].
Qed.

Lemma lockstep_false : ∀ xs ys i x y,
  xs !! i = Some x → ys !! i = Some y → neqb x y = true →
  agree neqb (take i xs) (take i ys) →
  lockstep neqb xs ys = Ok false.
Proof.
  induction xs as [|x0 xs IH]; intros [|y0 ys] i x y Hx Hy Hne Ha;
    simpl in *; try done.
  destruct i as [|i]; simpl in *.
  - simplify_eq. by rewrite Hne.
  - apply agree_cons in Ha as [-> Ha]. by eapply IH.
Qed.

(** C8, as the code has it.  equals returns false at once when the declared
    sizes differ.  With equal declared sizes it walks the two chains in
    lockstep: it returns false at the first position where the data differ;
    when the data agree and the chain of [other] ends while the chain of
    this list still has a node, it throws the runtime error of equals; when
    the data agree and the two chains have the same length, it returns
    true. *)
Theorem equals_walk h L other c1 c2 :
  chain h (head_ L) c1 → chain h (head_ other) c2 →
  (size_ L ≠ size_ other → equals neqb h L other = Ok false) ∧
  (size_ L = size_ other →
     ∀ i x y, c1.*2 !! i = Some x → c2.*2 !! i = Some y → neqb x y = true →
       agree neqb (take i c1.*2) (take i c2.*2) →
       equals neqb h L other = Ok false) ∧
  (size_ L = size_ other → (length c2 < length c1)%nat →
     agree neqb c1.*2 c2.*2 →
     equals neqb h L other
     = Throw (RuntimeError ("Error in equals: " +:+
                "otherCur missing a node or wrong item count"))) ∧
  (size_ L = size_ other → length c1 = length c2 →
     agree neqb c1.*2 c2.*2 →
     equals neqb h L other = Ok true).
Proof.
  intros H1 H2. pose proof (chain_length_le _ _ _ H1) as Hle.
  assert (Hwalk : size_ L = size_ other →
            equals neqb h L other = lockstep neqb c1.*2 c2.*2).
  { intros Hs. unfold equals. rewrite decide_False by (intros ?; done).
    apply equals_loop_chain; [done..|lia]. }
  split_and!.
  - intros Hs. unfold equals. by rewrite decide_True.
  - intros Hs i x y Hx Hy Hne Ha. rewrite Hwalk by done.
    by eapply lockstep_false.
  - intros Hs Hl Ha. rewrite Hwalk by done.
    apply lockstep_throw; [by rewrite !length_fmap|done].
  - intros Hs Hl Ha. rewrite Hwalk by done.
    apply lockstep_true; [rewrite !length_fmap; lia|done].
Qed.

End Facts.

(** *** Witnesses on the sample run *)

Lemma demo_run : run demo_actions init = Ok demo_state.
Proof. vm_compute. reflexivity. Qed.

Lemma demo_reachable : reachable demo_state.
Proof. apply (reachable_run demo_actions init); [constructor|apply demo_run]. Qed.

Lemma structural_invariants_witness :
  reachable demo_state ∧
  (∀ o L, objs demo_state !! o = Some L → invariant (nodes demo_state) L) ∧
  (∀ a, defined a demo_state →
     ∃ s', exec a demo_state = Ok s' ∧
       ∀ o L, objs s' !! o = Some L → invariant (nodes s') L).
Proof.
  split; [exact demo_reachable|].
  exact (structural_invariants demo_state demo_reachable).
Defined.

Lemma empty_list_behaviour_witness :
  reachable demo_state ∧ objs demo_state !! 3%positive = Some empty_list ∧
  empty empty_list = true ∧
  front (nodes demo_state) empty_list
  = Throw (RuntimeError "front() called on empty LinkedList") ∧
  back (nodes demo_state) empty_list
  = Throw (RuntimeError "back() called on empty LinkedList") ∧
  exec (Call 3%positive PopFront) demo_state = Ok demo_state ∧
  exec (Call 3%positive PopBack) demo_state = Ok demo_state.
Proof.
  split; [exact demo_reachable|]. split; [vm_compute; reflexivity|].
  split; [reflexivity|].
  apply (empty_list_behaviour demo_state 3%positive empty_list demo_reachable);
    [vm_compute; reflexivity|reflexivity].
Defined.

Lemma push_pop_identity_witness :
  reachable demo_state ∧ is_Some (objs demo_state !! 1%positive) ∧
  exec (Call 1%positive (PushBack 7)) demo_state ≫= exec (Call 1%positive PopBack)
  = Ok demo_state ∧
  exec (Call 1%positive (PushFront 7)) demo_state ≫= exec (Call 1%positive PopFront)
  = Ok demo_state.
Proof.
  assert (Hobj : is_Some (objs demo_state !! 1%positive))
    by (vm_compute; eauto).
  split; [exact demo_reachable|]. split; [exact Hobj|].
  exact (push_pop_identity demo_state 1%positive 7 demo_reachable Hobj).
Defined.

Lemma self_assignment_empties_witness :
  reachable demo_state ∧
  objs demo_state !! 1%positive
  = Some (mkList (Some 2%positive) (Some 1%positive) 2) ∧
  ∃ s', exec (Call 1%positive (Assign 1%positive)) demo_state = Ok s' ∧
    objs s' !! 1%positive = Some empty_list ∧
    holds s' 1%positive [] ∧
    (∀ o, o ≠ 1%positive → objs s' !! o = objs demo_state !! o).
Proof.
  assert (Hobj : objs demo_state !! 1%positive
                 = Some (mkList (Some 2%positive) (Some 1%positive) 2))
    by (vm_compute; reflexivity).
  split; [exact demo_reachable|]. split; [exact Hobj|].
  exact (self_assignment_empties demo_state 1%positive _ demo_reachable Hobj).
Defined.

Lemma bad_heap_short_chain :
  chain bad_heap (head_ short_list) [(1%positive, 7)].
Proof. simpl. split; [done|]. eexists. split; [by vm_compute|]. done. Qed.

Lemma bad_heap_long_chain :
  chain bad_heap (head_ long_list) [(2%positive, 7); (3%positive, 8)].
Proof.
  simpl. split; [done|]. eexists. split; [by vm_compute|]. simpl.
  split; [done|]. split; [done|]. eexists. split; [by vm_compute|]. done.
Qed.

Lemma equals_walk_witness :
  chain bad_heap (head_ long_list) [(2%positive, 7); (3%positive, 8)] ∧
  chain bad_heap (head_ short_list) [(1%positive, 7)] ∧
  equals int_neqb bad_heap long_list short_list
  = Throw (RuntimeError ("Error in equals: " +:+
             "otherCur missing a node or wrong item count")).
Proof.
  split; [exact bad_heap_long_chain|]. split; [exact bad_heap_short_chain|].
  refine (proj1 (proj2 (proj2
    (equals_walk int_neqb bad_heap long_list short_list _ _
       bad_heap_long_chain bad_heap_short_chain))) _ _ _).
  - reflexivity.
  - simpl. lia.
  - intros [|i] x y Hx Hy; simpl in *; [|done]. by simplify_eq.
Defined.

(** C8, read as a report of a short chain on either side, fails: the two
    lists below declare the same size, the chain of the first ends before the
    chain of the second, and equals returns true instead of throwing. *)
Lemma equals_short_chain_unreported :
  equals int_neqb bad_heap short_list long_list = Ok true ∧
  ¬ equals_reports_any_short_chain int_neqb bad_heap short_list long_list.
Proof.
  assert (E : equals int_neqb bad_heap short_list long_list = Ok true)
    by (vm_compute; reflexivity).
  split; [exact E|]. intros H.
  destruct (H eq_refl _ _ bad_heap_short_chain bad_heap_long_chain) as [what Hw].
  - simpl. lia.
  - rewrite E in Hw. discriminate.
Qed.

(** ** More on the pointer-level model *)

Section More.

Context {T : Type}.
Implicit Types (h : gmap loc (@Node T)) (L : LinkedList)
  (cells : list (loc * T)) (s : @state T) (own : gmap oid (list (loc * T)))
  (xs ys : list T).

(** The chain of a list is determined by the heap and the list object. *)
Lemma repr_unique h L c1 c2 : repr h L c1 → repr h L c2 → c1 = c2.
Proof.
  intros (Hh1 & _ & Hs1 & _ & Hn1) (Hh2 & _ & Hs2 & _ & Hn2).
  assert (Hlen : length c1 = length c2) by lia.
  assert (Hfst : ∀ i, fst <$> c1 !! i = fst <$> c2 !! i).
  { intros i. induction i as [|i IH].
    - by rewrite <- !head_lookup, <- Hh1, <- Hh2.
    - destruct (c1 !! i) as [[p1 x1]|] eqn:E1;
        destruct (c2 !! i) as [[p2 x2]|] eqn:E2; simplify_eq/=.
      + pose proof (Hn1 _ _ _ E1) as H1. pose proof (Hn2 _ _ _ E2) as H2.
        rewrite H1 in H2. by inversion H2.
      + apply lookup_ge_None in E1, E2. by rewrite !lookup_ge_None_2 by lia. }
  apply list_eq. intros i. specialize (Hfst i).
  destruct (c1 !! i) as [[p1 x1]|] eqn:E1;
    destruct (c2 !! i) as [[p2 x2]|] eqn:E2; simplify_eq/=; [|done].
  pose proof (Hn1 _ _ _ E1) as H1. pose proof (Hn2 _ _ _ E2) as H2.
  rewrite H1 in H2. by inversion H2.
Qed.

Lemma owns_holds s own o cells :
  owns s own → own !! o = Some cells → holds s o cells.*2.
Proof.
  intros (Hdom & Hobj & _) Hc.
  destruct (proj1 (Hdom o)) as [L HL]; [by eauto|].
  exists L, cells. split_and!; [done| |done]. by eapply Hobj.
Qed.

Lemma holds_owns s own o xs :
  owns s own → holds s o xs → ∃ cells, own !! o = Some cells ∧ cells.*2 = xs.
Proof.
  intros Hown (L & cells & HL & Hr & <-).
  destruct (owns_lookup _ _ _ _ Hown HL) as (cells' & Hc & Hr').
  exists cells'. split; [done|]. by rewrite (repr_unique _ _ _ _ Hr Hr').
Qed.

(* What an object other than [this] holds is not touched when the chain of
   [this] changes. *)
Lemma holds_other s s' own this c' :
  owns s own → owns s' (<[this := c']> own) →
  ∀ o ys, o ≠ this → holds s o ys → holds s' o ys.
Proof.
  intros Hown Hown' o ys Ho Hys.
  destruct (holds_owns _ _ _ _ Hown Hys) as (co & Hco & <-).
  eapply owns_holds; [done|]. by rewrite lookup_insert_ne.
Qed.

Lemma holds_this s' own this c' :
  owns s' (<[this := c']> own) → holds s' this c'.*2.
Proof. intros Hown'. eapply owns_holds; [done|]. by rewrite lookup_insert_eq. Qed.

(** Every allocated node belongs to a list *)

Lemma call_tight s own this L cells m cells' h' L' :
  tight s own → own !! this = Some cells →
  post (nodes s) cells (m (nodes s) L) cells' → m (nodes s) L = Ok (h', L') →
  tight (mkState h' (<[this := L']> (objs s))) (<[this := cells']> own).
Proof.
  intros Ht Hc (h'' & L'' & Em & _ & Hf & Hd & _) Em'.
  rewrite Em in Em'. simplify_eq. intros q Hq. simpl in Hq.
  destruct (decide (q ∈ cells'.*1)) as [Hq'|Hq'].
  { exists this, cells'. by rewrite lookup_insert_eq. }
  destruct (decide (q ∈ cells.*1)) as [Hqc|Hqc].
  { rewrite (Hd _ Hqc Hq') in Hq. by destruct Hq. }
  rewrite (Hf _ Hqc Hq') in Hq. destruct (Ht _ Hq) as (o & co & Hco & Hqo).
  exists o, co. split; [|done]. rewrite lookup_insert_ne; [done|].
  intros <-. by simplify_eq.
Qed.

(* A member function called on [this], with all that is known afterwards. *)
Lemma call_full s own this cells m cells' :
  owns s own → tight s own → own !! this = Some cells →
  (∀ L, repr (nodes s) L cells → post (nodes s) cells (m (nodes s) L) cells') →
  ∃ s', call this m s = Ok s' ∧
    owns s' (<[this := cells']> own) ∧ tight s' (<[this := cells']> own) ∧
    (∀ q, q ∉ cells.*1 → q ∉ cells'.*1 → nodes s' !! q = nodes s !! q) ∧
    (∀ q, q ∈ cells.*1 → q ∉ cells'.*1 → nodes s' !! q = None).
Proof.
  intros Hown Ht Hc Hm.
  destruct (proj1 (proj1 Hown this)) as [L HL]; [by eauto|].
  pose proof (proj1 (proj2 Hown) _ _ _ HL Hc) as Hr.
  specialize (Hm L Hr).
  destruct (call_spec _ _ _ _ _ _ _ Hown HL Hc Hm)
    as (h' & L' & Em & E & _ & Hown' & Hf).
  eexists. split; [exact E|]. split; [done|]. split; [by eapply call_tight|].
  split; [done|]. destruct Hm as (h'' & L'' & Em' & _ & _ & Hd & _).
  rewrite Em in Em'. simplify_eq. exact Hd.
Qed.

Lemma owns_object s own o cells :
  owns s own → own !! o = Some cells →
  ∃ L, objs s !! o = Some L ∧ repr (nodes s) L cells.
Proof.
  intros (Hdom & Hobj & _) Hc.
  destruct (proj1 (Hdom o)) as [L HL]; [by eauto|].
  exists L. split; [done|]. by eapply Hobj.
Qed.

Lemma assign_loop_full this other co (Hne : this ≠ other) :
  ∀ n i s own ci fuel,
    owns s own → tight s own →
    own !! this = Some ci → own !! other = Some co →
    (i + n = length co)%nat → (n ≤ fuel)%nat →
    ∃ s' c', assign_loop fuel this (fst <$> co !! i) s = Ok s' ∧
      owns s' (<[this := c']> own) ∧ tight s' (<[this := c']> own) ∧
      c'.*2 = ci.*2 ++ drop i co.*2.
Proof.
  induction n as [|n IH]; intros i s own ci fuel Hown Ht Hci Hco Hlen Hfuel.
  - rewrite lookup_ge_None_2 by lia. exists s, ci.
    rewrite drop_ge by (rewrite length_fmap; lia).
    rewrite insert_id by done. rewrite app_nil_r. by destruct fuel.
  - destruct (lookup_lt_is_Some_2 co i) as [[p x] Hi]; [lia|].
    destruct fuel as [|fuel]; [lia|]. rewrite Hi. simpl.
    rewrite (owns_node _ _ _ _ _ _ _ Hown Hco Hi). simpl.
    destruct (call_full s own this ci (pushBack x)
                (ci ++ [(fresh (dom (nodes s)), x)]) Hown Ht Hci)
      as (s1 & E & Hown1 & Ht1 & _).
    { intros L Hr. by apply pushBack_spec. }
    rewrite E. simpl.
    assert (Hco1 : <[this := ci ++ [(fresh (dom (nodes s)), x)]]> own !! other
                   = Some co) by by rewrite lookup_insert_ne.
    rewrite (owns_node _ _ _ _ _ _ _ Hown1 Hco1 Hi). simpl.
    destruct (IH (S i) _ _ (ci ++ [(fresh (dom (nodes s)), x)]) fuel Hown1 Ht1)
      as (s' & c' & E' & Hown' & Ht' & Hdata);
      [by rewrite lookup_insert_eq|done|lia..|].
    exists s', c'. split; [done|]. rewrite insert_insert_eq in Hown', Ht'.
    split; [done|]. split; [done|].
    rewrite Hdata, fmap_app, <- app_assoc. simpl.
    f_equal. symmetry. apply drop_S. by rewrite list_lookup_fmap, Hi.
Qed.

Lemma clear_full s own this cells :
  owns s own → tight s own → own !! this = Some cells →
  ∃ s', call this clear s = Ok s' ∧
    owns s' (<[this := []]> own) ∧ tight s' (<[this := []]> own) ∧
    (∀ q, q ∉ cells.*1 → nodes s' !! q = nodes s !! q) ∧
    (∀ q, q ∈ cells.*1 → nodes s' !! q = None).
Proof.
  intros Hown Ht Hc.
  destruct (call_full s own this cells clear [] Hown Ht Hc)
    as (s' & E & Hown' & Ht' & Hf & Hd).
  { intros L Hr. by apply clear_spec. }
  exists s'. split_and!; try done.
  - intros q Hq. apply Hf; [done|]. apply not_elem_of_nil.
  - intros q Hq. apply Hd; [done|]. apply not_elem_of_nil.
Qed.

Lemma operator_assign_full s own this other ct co :
  this ≠ other → owns s own → tight s own →
  own !! this = Some ct → own !! other = Some co →
  ∃ s' c', operator_assign this other s = Ok s' ∧
    owns s' (<[this := c']> own) ∧ tight s' (<[this := c']> own) ∧
    c'.*2 = co.*2.
Proof.
  intros Hne Hown Ht Hct Hco.
  destruct (clear_full _ _ _ _ Hown Ht Hct) as (s1 & E & Hown1 & Ht1 & _).
  unfold operator_assign. rewrite E. simpl.
  assert (Hco1 : <[this := []]> own !! other = Some co)
    by by rewrite lookup_insert_ne.
  destruct (owns_object _ _ _ _ Hown1 Hco1) as (Lo & HLo & Hro).
  rewrite HLo. simpl.
  pose proof (repr_length_le _ _ _ Hro) as Hle.
  destruct (assign_loop_full this other co Hne (length co) 0 _ _ []
              (S (base.size (nodes s1))) Hown1 Ht1)
    as (s' & c' & E' & Hown' & Ht' & Hdata);
    [by rewrite lookup_insert_eq|done|lia|lia|].
  destruct Hro as (Hh & _). rewrite Hh, head_lookup.
  exists s', c'. split; [done|]. rewrite insert_insert_eq in Hown', Ht'.
  split; [done|]. split; [done|]. by rewrite Hdata, drop_0.
Qed.

Lemma operator_assign_self_full s own this ct :
  owns s own → tight s own → own !! this = Some ct →
  ∃ s', operator_assign this this s = Ok s' ∧
    owns s' (<[this := []]> own) ∧ tight s' (<[this := []]> own).
Proof.
  intros Hown Ht Hct.
  destruct (clear_full _ _ _ _ Hown Ht Hct) as (s1 & E & Hown1 & Ht1 & _).
  exists s1. split; [|done]. unfold operator_assign. rewrite E. simpl.
  destruct (owns_object s1 _ this [] Hown1) as (L1 & HL1 & Hr1);
    [by rewrite lookup_insert_eq|].
  rewrite HL1. simpl. apply repr_nil in Hr1 as ->. done.
Qed.

Lemma construct_tight s own :
  owns s own → tight s own →
  tight (construct s).2 (<[(construct s).1 := []]> own).
Proof.
  intros Hown Ht q Hq. simpl in *. destruct (Ht _ Hq) as (o & co & Hco & Hqo).
  exists o, co. split; [|done]. rewrite lookup_insert_ne; [done|].
  intros <-. rewrite (owns_fresh_None _ _ Hown) in Hco. done.
Qed.

Lemma copy_construct_full s own other co :
  owns s own → tight s own → own !! other = Some co →
  ∃ this s' c', copy_construct other s = Ok (this, s') ∧
    objs s !! this = None ∧
    owns s' (<[this := c']> own) ∧ tight s' (<[this := c']> own) ∧
    c'.*2 = co.*2.
Proof.
  intros Hown Ht Hco. pose proof (owns_fresh_None _ _ Hown) as Hf.
  pose proof (construct_owns _ _ Hown) as Hown0.
  pose proof (construct_tight _ _ Hown Ht) as Ht0.
  unfold copy_construct. destruct (construct s) as [this s0] eqn:E.
  assert (this = fresh (dom (objs s))) as Hthis by by inversion E.
  simpl in Hown0, Ht0. rewrite <- Hthis in Hf.
  assert (Hne : this ≠ other) by congruence.
  destruct (operator_assign_full s0 _ this other [] co Hne Hown0 Ht0)
    as (s' & c' & E' & Hown' & Ht' & Hdata).
  { by rewrite lookup_insert_eq. }
  { by rewrite lookup_insert_ne. }
  rewrite E'. simpl. exists this, s', c'.
  rewrite insert_insert_eq in Hown', Ht'. split_and!; try done.
  rewrite Hthis. apply not_elem_of_dom, is_fresh.
Qed.

Lemma destroy_full s own this cells :
  owns s own → tight s own → own !! this = Some cells →
  ∃ s', destroy this s = Ok s' ∧
    owns s' (delete this own) ∧ tight s' (delete this own) ∧
    objs s' = delete this (objs s) ∧
    (∀ q, q ∉ cells.*1 → nodes s' !! q = nodes s !! q) ∧
    (∀ q, q ∈ cells.*1 → nodes s' !! q = None).
Proof.
  intros Hown Ht Hc.
  destruct (owns_object _ _ _ _ Hown Hc) as (L & HL & _).
  destruct (destroy_spec _ _ this Hown) as (s' & E & Hown'); [by eauto|].
  destruct (clear_full _ _ _ _ Hown Ht Hc) as (s1 & E1 & Hown1 & Ht1 & Hf & Hd).
  unfold destroy in E. rewrite E1 in E. simpl in E. simplify_eq.
  eexists. split; [unfold destroy; by rewrite E1|]. split; [done|].
  simpl. split_and!; try done.
  - intros q Hq. simpl in Hq. destruct (Ht1 _ Hq) as (o & co & Hco & Hqo).
    destruct (decide (o = this)) as [->|Ho].
    { rewrite lookup_insert_eq in Hco. simplify_eq. by apply elem_of_nil in Hqo. }
    rewrite lookup_insert_ne in Hco by done.
    exists o, co. by rewrite lookup_delete_ne.
  - unfold call in E1. rewrite HL in E1. simpl in E1.
    destruct (clear (nodes s) L) as [[h' L']|]; simplify_eq/=.
    by rewrite delete_insert_eq.
Qed.

Lemma exec_full a s own :
  owns s own → tight s own → defined a s →
  ∃ s' own', exec a s = Ok s' ∧ owns s' own' ∧ tight s' own'.
Proof.
  intros Hown Ht Hdef.
  assert (Hcell : ∀ o, is_Some (objs s !! o) → ∃ c, own !! o = Some c).
  { intros o [L HL]. destruct (owns_lookup _ _ _ _ Hown HL) as (c & Hc & _).
    eauto. }
  assert (Hcall : ∀ this m, is_Some (objs s !! this) →
            (∀ L cells, repr (nodes s) L cells →
               ∃ cells', post (nodes s) cells (m (nodes s) L) cells') →
            ∃ s' own', call this m s = Ok s' ∧ owns s' own' ∧ tight s' own').
  { intros this m Hthis Hm. destruct (Hcell _ Hthis) as [cells Hc].
    destruct (owns_object _ _ _ _ Hown Hc) as (L & HL & Hr).
    destruct (Hm _ _ Hr) as [cells' Hpost].
    destruct (call_full s own this cells m cells' Hown Ht Hc)
      as (s' & E & Hown' & Ht' & _).
    { intros L0 Hr0. assert (L0 = L) as ->; [|done].
      destruct L0, L. destruct Hr0 as (?&?&?&_), Hr as (?&?&?&_).
      simpl in *. congruence. }
    eauto. }
  destruct a as [|other|this|this [v|v| | | |other]]; simpl in *.
  - eexists _, _. split; [done|].
    split; [by apply construct_owns|by apply construct_tight].
  - destruct (Hcell _ Hdef) as [co Hco].
    destruct (copy_construct_full _ _ _ _ Hown Ht Hco)
      as (this & s' & c' & E & _ & Hown' & Ht' & _).
    rewrite E. simpl. eauto.
  - destruct (Hcell _ Hdef) as [c Hc].
    destruct (destroy_full _ _ _ _ Hown Ht Hc) as (s' & E & Hown' & Ht' & _).
    eauto.
  - apply Hcall; [done|]. intros L cells Hr. eexists. by apply pushFront_spec.
  - apply Hcall; [done|]. intros L cells Hr. eexists. by apply pushBack_spec.
  - apply Hcall; [done|]. intros L cells Hr. by apply popFront_post.
  - apply Hcall; [done|]. intros L cells Hr. by apply popBack_post.
  - apply Hcall; [done|]. intros L cells Hr. eexists. by apply clear_spec.
  - destruct Hdef as [Hthis Hother].
    destruct (Hcell _ Hthis) as [ct Hct]. destruct (Hcell _ Hother) as [co Hco].
    destruct (decide (this = other)) as [->|Hne].
    + destruct (operator_assign_self_full _ _ _ _ Hown Ht Hct)
        as (s' & E & Hown' & Ht'). eauto.
    + destruct (operator_assign_full _ _ _ _ _ _ Hne Hown Ht Hct Hco)
        as (s' & c' & E & Hown' & Ht' & _). eauto.
Qed.

Lemma exec_Ok_full a s s' own :
  owns s own → tight s own → exec a s = Ok s' →
  ∃ own', owns s' own' ∧ tight s' own'.
Proof.
  intros Hown Ht E.
  assert (Hdef : defined a s → ∃ own', owns s' own' ∧ tight s' own').
  { intros Hdef. destruct (exec_full a s own Hown Ht Hdef)
      as (s'' & own' & E' & ?). rewrite E in E'. simplify_eq. eauto. }
  destruct a as [|other|this|this [v|v| | | |other]]; simpl in *;
    eauto using call_Ok_defined, operator_assign_Ok_defined.
  - destruct (objs s !! other) as [Lo|] eqn:HLo; [by eauto|].
    clear Hdef. unfold copy_construct in E. simpl in E.
    apply bind_Ok in E as ([this s1] & (s2 & E & [= <- <-])%bind_Ok & [= <-]).
    pose proof (operator_assign_Ok_defined _ _ _ _ E) as [Hthis [Lo' HLo']].
    simpl in HLo'.
    destruct (decide (other = fresh (dom (objs s)))) as [->|Hne].
    + pose proof (construct_owns _ _ Hown) as Hown0.
      pose proof (construct_tight _ _ Hown Ht) as Ht0. simpl in Hown0, Ht0.
      destruct (operator_assign_self_full _ _ (fresh (dom (objs s))) []
                  Hown0 Ht0) as (s' & E' & Hown' & Ht');
        [by rewrite lookup_insert_eq|].
      rewrite E' in E. simplify_eq. eauto.
    + rewrite lookup_insert_ne in HLo' by done. congruence.
  - unfold destroy in E. apply bind_Ok in E as (s1 & E & _).
    eauto using call_Ok_defined.
Qed.

Lemma reachable_full s : reachable s → ∃ own, owns s own ∧ tight s own.
Proof.
  induction 1 as [|s a s' _ (own & Hown & Ht) E].
  - exists ∅. split; [apply owns_init|]. intros q Hq.
    simpl in Hq. rewrite lookup_empty in Hq. by destruct Hq.
  - by eapply exec_Ok_full.
Qed.

(** *** What the mutating member functions do to the data *)

(* A member function that changes the data of a well-formed list by [f]
   does so for [this] and leaves every other object as it was. *)
Lemma method_holds s this xs m (f : list T → list T) :
  reachable s → holds s this xs →
  (∀ h L cells, repr h L cells →
     ∃ cells', post h cells (m h L) cells' ∧ cells'.*2 = f cells.*2) →
  ∃ s', call this m s = Ok s' ∧ holds s' this (f xs) ∧
    (∀ o ys, o ≠ this → holds s o ys → holds s' o ys).
Proof.
  intros Hs Hxs Hm. destruct (reachable_full _ Hs) as (own & Hown & _).
  destruct (holds_owns _ _ _ _ Hown Hxs) as (cells & Hc & <-).
  destruct (owns_object _ _ _ _ Hown Hc) as (L & HL & Hr).
  destruct (Hm _ _ _ Hr) as (cells' & Hpost & Hdata).
  destruct (call_spec _ _ _ _ _ _ _ Hown HL Hc Hpost)
    as (h' & L' & _ & E & _ & Hown' & _).
  eexists. split; [exact E|]. split.
  - rewrite <- Hdata. by eapply holds_this.
  - by eapply holds_other.
Qed.

(** X1. pushFront(v) puts [v] before the data of the list and changes no
    other list. *)
Theorem pushFront_prepends s this xs v :
  reachable s → holds s this xs →
  ∃ s', exec (Call this (PushFront v)) s = Ok s' ∧
    holds s' this (v :: xs) ∧
    (∀ o ys, o ≠ this → holds s o ys → holds s' o ys).
Proof.
  intros Hs Hxs. apply (method_holds s this xs (pushFront v) (cons v) Hs Hxs).
  intros h L cells Hr. eexists. split; [by apply pushFront_spec|done].
Qed.

(** X2. pushBack(v) puts [v] after the data of the list and changes no
    other list. *)
Theorem pushBack_appends s this xs v :
  reachable s → holds s this xs →
  ∃ s', exec (Call this (PushBack v)) s = Ok s' ∧
    holds s' this (xs ++ [v]) ∧
    (∀ o ys, o ≠ this → holds s o ys → holds s' o ys).
Proof.
  intros Hs Hxs.
  apply (method_holds s this xs (pushBack v) (λ l, l ++ [v]) Hs Hxs).
  intros h L cells Hr. eexists. split; [by apply pushBack_spec|].
  by rewrite fmap_app.
Qed.

(** X3. popFront() drops the first item of the list (nothing when the list
    is empty) and changes no other list. *)
Theorem popFront_drops_first s this xs :
  reachable s → holds s this xs →
  ∃ s', exec (Call this PopFront) s = Ok s' ∧
    holds s' this (tail xs) ∧
    (∀ o ys, o ≠ this → holds s o ys → holds s' o ys).
Proof.
  intros Hs Hxs. apply (method_holds s this xs popFront (@tail T) Hs Hxs).
  intros h L [|c cells] Hr.
  - exists []. rewrite (popFront_nil _ _ Hr). split; [by apply post_refl|done].
  - exists cells. split; [by apply popFront_spec|done].
Qed.

(** X4. popBack() drops the last item of the list (nothing when the list is
    empty) and changes no other list. *)
Theorem popBack_drops_last s this xs :
  reachable s → holds s this xs →
  ∃ s', exec (Call this PopBack) s = Ok s' ∧
    holds s' this (removelast xs) ∧
    (∀ o ys, o ≠ this → holds s o ys → holds s' o ys).
Proof.
  intros Hs Hxs. apply (method_holds s this xs popBack (@removelast T) Hs Hxs).
  intros h L cells Hr. destruct cells as [|c cells _] using rev_ind.
  - exists []. rewrite (popBack_nil _ _ Hr). split; [by apply post_refl|done].
  - exists cells. split; [by apply popBack_spec|].
    rewrite fmap_app. simpl. by rewrite removelast_last.
Qed.

(** X5. On a list that is not empty front() returns the first item and
    back() the last one. *)
Theorem front_back_values s this L xs :
  objs s !! this = Some L → holds s this xs →
  (∀ x, head xs = Some x → front (nodes s) L = Ok x) ∧
  (∀ x, last xs = Some x → back (nodes s) L = Ok x).
Proof.
  intros HL (L' & cells & HL' & Hr & <-). simplify_eq.
  destruct (refinement _ _ _ Hr) as (_ & _ & Hfront & Hback & _). split.
  - intros x Hx. rewrite Hfront. destruct (cells.*2); by simplify_eq/=.
  - intros x Hx. rewrite Hback. unfold Alg.back. by rewrite Hx.
Qed.

(** X6. clear() leaves the list empty, deallocates every node the list had
    and touches no other node and no other list. *)
Theorem clear_frees s this L cells :
  reachable s → objs s !! this = Some L → repr (nodes s) L cells →
  ∃ s', exec (Call this Clear) s = Ok s' ∧
    objs s' !! this = Some empty_list ∧ holds s' this [] ∧
    (∀ q, q ∈ cells.*1 → nodes s' !! q = None) ∧
    (∀ q, q ∉ cells.*1 → nodes s' !! q = nodes s !! q) ∧
    (∀ o ys, o ≠ this → holds s o ys → holds s' o ys).
Proof.
  intros Hs HL Hr. destruct (reachable_full _ Hs) as (own & Hown & Ht).
  destruct (owns_lookup _ _ _ _ Hown HL) as (cells' & Hc & Hr').
  rewrite (repr_unique _ _ _ _ Hr Hr') in *. clear Hr.
  destruct (clear_full _ _ _ _ Hown Ht Hc) as (s' & E & Hown' & _ & Hf & Hd).
  exists s'. split; [exact E|].
  destruct (owns_object s' _ this [] Hown') as (L' & HL' & Hr'');
    [by rewrite lookup_insert_eq|].
  apply repr_nil in Hr'' as ->. split_and!; try done.
  - by apply (holds_this s' own this []).
  - by eapply holds_other.
Qed.

(** X7. No node leaks and no node is shared: in every state the interface
    can bring about, each allocated node is in the chain of a list, the
    chains of two lists have no node in common, and when no list is left no
    node is allocated. *)
Theorem nodes_owned s :
  reachable s →
  (∀ q, is_Some (nodes s !! q) →
     ∃ o L cells, objs s !! o = Some L ∧ repr (nodes s) L cells ∧ q ∈ cells.*1) ∧
  (∀ o1 o2 L1 L2 c1 c2, o1 ≠ o2 →
     objs s !! o1 = Some L1 → objs s !! o2 = Some L2 →
     repr (nodes s) L1 c1 → repr (nodes s) L2 c2 → c1.*1 ## c2.*1) ∧
  (objs s = ∅ → nodes s = ∅).
Proof.
  intros Hs. destruct (reachable_full _ Hs) as (own & Hown & Ht).
  assert (Hfirst : ∀ q, is_Some (nodes s !! q) →
            ∃ o L cells, objs s !! o = Some L ∧ repr (nodes s) L cells ∧
              q ∈ cells.*1).
  { intros q Hq. destruct (Ht _ Hq) as (o & cells & Hc & Hqc).
    destruct (owns_object _ _ _ _ Hown Hc) as (L & HL & Hr).
    by exists o, L, cells. }
  split_and!; [done| |].
  - intros o1 o2 L1 L2 c1 c2 Hne H1 H2 Hr1 Hr2.
    destruct (owns_lookup _ _ _ _ Hown H1) as (c1' & Hc1 & Hr1').
    destruct (owns_lookup _ _ _ _ Hown H2) as (c2' & Hc2 & Hr2').
    rewrite (repr_unique _ _ _ _ Hr1 Hr1'), (repr_unique _ _ _ _ Hr2 Hr2').
    by apply (proj2 (proj2 Hown) o1 o2).
  - intros Hempty. apply map_empty. intros q.
    destruct (nodes s !! q) eqn:E; [|done].
    destruct (Hfirst q) as (o & L & _ & HL & _); [by eauto|].
    rewrite Hempty, lookup_empty in HL. done.
Qed.

(** X8. Assignment from another list makes [this] hold a copy of the data
    of [other]; [other] and every further list keep theirs. *)
Theorem operator_assign_copies s this other xs :
  reachable s → this ≠ other → is_Some (objs s !! this) →
  holds s other xs →
  ∃ s', exec (Call this (Assign other)) s = Ok s' ∧
    holds s' this xs ∧
    (∀ o ys, o ≠ this → holds s o ys → holds s' o ys).
Proof.
  intros Hs Hne [Lt HLt] Hxs. destruct (reachable_full _ Hs) as (own & Hown & Ht).
  destruct (owns_lookup _ _ _ _ Hown HLt) as (ct & Hct & _).
  destruct (holds_owns _ _ _ _ Hown Hxs) as (co & Hco & <-).
  destruct (operator_assign_full _ _ _ _ _ _ Hne Hown Ht Hct Hco)
    as (s' & c' & E & Hown' & _ & Hdata).
  exists s'. split; [exact E|]. split.
  - rewrite <- Hdata. by eapply holds_this.
  - by eapply holds_other.
Qed.


(** X10. The destructor removes the list from the store, deallocates every
    node it had, and leaves every other list with its data. *)
Theorem destroy_frees s this L cells :
  reachable s → objs s !! this = Some L → repr (nodes s) L cells →
  ∃ s', exec (Delete this) s = Ok s' ∧
    objs s' !! this = None ∧
    (∀ q, q ∈ cells.*1 → nodes s' !! q = None) ∧
    (∀ q, q ∉ cells.*1 → nodes s' !! q = nodes s !! q) ∧
    (∀ o ys, o ≠ this → holds s o ys → holds s' o ys).
Proof.
  intros Hs HL Hr. destruct (reachable_full _ Hs) as (own & Hown & Ht).
  destruct (owns_lookup _ _ _ _ Hown HL) as (cells' & Hc & Hr').
  rewrite (repr_unique _ _ _ _ Hr Hr') in *. clear Hr.
  destruct (destroy_full _ _ _ _ Hown Ht Hc)
    as (s' & E & Hown' & _ & Hobjs & Hf & Hd).
  exists s'. split; [exact E|]. split_and!; try done.
  - rewrite Hobjs. apply lookup_delete_eq.
  - intros o ys Ho Hys.
    destruct (holds_owns _ _ _ _ Hown Hys) as (co & Hco & <-).
    eapply owns_holds; [done|]. by rewrite lookup_delete_ne.
Qed.

(** *** The member functions that only read the list *)

Lemma lockstep_same_length (neqb : T → T → bool) : ∀ xs ys,
  length xs = length ys →
  ∃ b, lockstep neqb xs ys = Ok b ∧ (b = true ↔ agree neqb xs ys).
Proof.
  induction xs as [|x xs IH]; intros [|y ys] Hlen; simpl in *; try done.
  - exists true. split; [done|]. split; [|done]. by intros _ [|?] ???.
  - destruct (neqb x y) eqn:E.
    + exists false. split; [done|]. split; [done|].
      intros Ha. specialize (Ha 0%nat x y eq_refl eq_refl). congruence.
    + destruct (IH ys) as (b & Eb & Hb); [lia|].
      exists b. split; [done|]. rewrite Hb. split.
      * intros Ha [|i] x' y' Hx Hy; simplify_eq/=; [done|]. by eapply Ha.
      * intros Ha i x' y' Hx Hy. by apply (Ha (S i)).
Qed.

Lemma equals_repr (neqb : T → T → bool) h L other c1 c2 :
  repr h L c1 → repr h other c2 →
  ∃ b, equals neqb h L other = Ok b ∧
    (b = true ↔ length c1 = length c2 ∧ agree neqb c1.*2 c2.*2).
Proof.
  intros Hr1 Hr2. pose proof Hr1 as (_ & _ & Hs1 & _).
  pose proof Hr2 as (_ & _ & Hs2 & _). unfold equals.
  destruct (decide (size_ L ≠ size_ other)) as [Hne|Heq].
  - exists false. split; [done|]. split; [done|]. intros [Hlen _]. lia.
  - assert (length c1 = length c2) as Hlen by lia.
    pose proof (repr_chain _ _ _ Hr1) as H1.
    pose proof (repr_chain _ _ _ Hr2) as H2.
    pose proof (chain_length_le _ _ _ H1) as Hle.
    rewrite (equals_loop_chain neqb h c1 c2) by (done || lia).
    destruct (lockstep_same_length neqb c1.*2 c2.*2) as (b & Eb & Hb).
    { by rewrite !length_fmap. }
    exists b. split; [done|]. rewrite Hb. naive_solver.
Qed.

(** X11. On two well-formed lists equals never throws, and it returns true
    exactly when the lists have the same length and [!=] holds at no
    position. *)
Theorem equals_well_formed (neqb : T → T → bool) s a b La Lb xs ys :
  objs s !! a = Some La → objs s !! b = Some Lb →
  holds s a xs → holds s b ys →
  ∃ r, equals neqb (nodes s) La Lb = Ok r ∧
    (r = true ↔ length xs = length ys ∧ agree neqb xs ys).
Proof.
  intros Ha Hb (La' & c1 & Ha' & Hr1 & <-) (Lb' & c2 & Hb' & Hr2 & <-).
  simplify_eq. destruct (equals_repr neqb _ _ _ _ _ Hr1 Hr2) as (r & E & Hr).
  exists r. split; [done|]. by rewrite !length_fmap.
Qed.

(** X12. After [this = other] the two lists are equal, in both directions,
    when no value differs from itself. *)
Theorem copy_equals (neqb : T → T → bool) s this other :
  reachable s → this ≠ other →
  is_Some (objs s !! this) → is_Some (objs s !! other) →
  (∀ x, neqb x x = false) →
  ∃ s' L1 L2, exec (Call this (Assign other)) s = Ok s' ∧
    objs s' !! this = Some L1 ∧ objs s' !! other = Some L2 ∧
    equals neqb (nodes s') L1 L2 = Ok true ∧
    equals neqb (nodes s') L2 L1 = Ok true.
Proof.
  intros Hs Hne [Lt HLt] [Lo HLo] Hrefl.
  destruct (reachable_full _ Hs) as (own & Hown & Ht).
  destruct (owns_lookup _ _ _ _ Hown HLt) as (ct & Hct & _).
  destruct (owns_lookup _ _ _ _ Hown HLo) as (co & Hco & _).
  destruct (operator_assign_full _ _ _ _ _ _ Hne Hown Ht Hct Hco)
    as (s' & c' & E & Hown' & _ & Hdata).
  destruct (owns_object s' _ this c' Hown') as (L1 & HL1 & Hr1);
    [by rewrite lookup_insert_eq|].
  destruct (owns_object s' _ other co Hown') as (L2 & HL2 & Hr2);
    [by rewrite lookup_insert_ne|].
  exists s', L1, L2. split; [exact E|]. split; [done|]. split; [done|].
  assert (Hlen : length c' = length co).
  { by rewrite <- (length_fmap snd c'), Hdata, length_fmap. }
  assert (Hag : agree neqb co.*2 co.*2).
  { intros i x y Hx Hy. simplify_eq. apply Hrefl. }
  split.
  - destruct (equals_repr neqb _ _ _ _ _ Hr1 Hr2) as (r & Er & Hr).
    rewrite Er. f_equal. apply Hr. by rewrite Hdata.
  - destruct (equals_repr neqb _ _ _ _ _ Hr2 Hr1) as (r & Er & Hr).
    rewrite Er. f_equal. apply Hr. by rewrite Hdata.
Qed.

Lemma isSorted_loop_spec (leb : T → T → bool) h L cells : repr h L cells →
  ∀ n i p x fuel, cells !! i = Some (p, x) →
    (S i + n = length cells)%nat → (n ≤ fuel)%nat →
    ∃ b, isSorted_loop leb fuel h p = Ok b ∧
      (b = true ↔ ∀ j y z, (i ≤ j)%nat →
         cells.*2 !! j = Some y → cells.*2 !! S j = Some z → leb y z = true).
Proof.
  intros (_ & _ & _ & _ & Hn).
  induction n as [|n IH]; intros i p x fuel Hi Hlen Hf.
  - exists true. split.
    + destruct fuel; simpl; rewrite (Hn _ _ _ Hi); simpl;
        by rewrite lookup_ge_None_2 by lia.
    + split; [|done]. intros _ j y z Hj _ Hz.
      apply lookup_lt_Some in Hz. rewrite length_fmap in Hz. lia.
  - destruct (lookup_lt_is_Some_2 cells (S i)) as [[p' x'] Hi']; [lia|].
    destruct fuel as [|fuel]; [lia|]. simpl.
    rewrite (Hn _ _ _ Hi). simpl. rewrite Hi'. simpl.
    rewrite (Hn _ _ _ Hi'). simpl.
    assert (Hx : cells.*2 !! i = Some x) by by rewrite list_lookup_fmap, Hi.
    assert (Hx' : cells.*2 !! S i = Some x') by by rewrite list_lookup_fmap, Hi'.
    destruct (leb x x') eqn:E; simpl.
    + destruct (IH (S i) p' x' fuel Hi') as (b & Eb & Hb); [lia..|].
      exists b. split; [done|]. rewrite Hb. split.
      * intros H j y z Hj Hy Hz. destruct (decide (j = i)) as [->|Hne].
        { by simplify_eq. }
        apply (H j); [lia|done..].
      * intros H j y z Hj. apply H. lia.
    + exists false. split; [done|]. split; [done|].
      intros H. rewrite (H i x x') in E; [done|lia|done..].
Qed.

Lemma alg_isSorted_loop_adjacent (leb : T → T → bool) : ∀ rest x,
  Alg.isSorted_loop leb x rest = true ↔ adjacent_in_order leb (x :: rest).
Proof.
  induction rest as [|y rest IH]; intros x; simpl.
  - split; [|done]. by intros _ [|i] ???.
  - destruct (leb x y) eqn:E; simpl.
    + rewrite IH. split.
      * intros H [|i] a b Ha Hb; simplify_eq/=; [done|]. by eapply H.
      * intros H i a b Ha Hb. by apply (H (S i)).
    + split; [done|]. intros H. rewrite (H 0%nat x y) in E; done.
Qed.

Lemma alg_isSorted_adjacent (leb : T → T → bool) xs :
  ∃ b, Alg.isSorted leb xs = Ok b ∧ (b = true ↔ adjacent_in_order leb xs).
Proof.
  unfold Alg.isSorted, Alg.size. destruct xs as [|x [|y xs]].
  - exists true. split; [done|]. split; [|done]. by intros _ [|i] ???.
  - exists true. split; [done|]. split; [|done]. by intros _ [|[|i]] ???.
  - exists (Alg.isSorted_loop leb x (y :: xs)). split.
    + destruct (Z.ltb_spec (Z.of_nat (length (x :: y :: xs))) 2) as [H|H];
        [simpl in H; lia|done].
    + apply alg_isSorted_loop_adjacent.
Qed.

(** X13. On a well-formed list isSorted never throws, it returns true
    exactly when every item is [<=] the item after it, and it returns what
    the value-level isSorted returns on the data of the list. *)
Theorem isSorted_adjacent (leb : T → T → bool) s this L xs :
  objs s !! this = Some L → holds s this xs →
  (∃ b, isSorted leb (nodes s) L = Ok b ∧
     (b = true ↔ adjacent_in_order leb xs)) ∧
  isSorted leb (nodes s) L = Alg.isSorted leb xs.
Proof.
  intros HL Hxs.
  assert (Hmain : ∃ b, isSorted leb (nodes s) L = Ok b ∧
            (b = true ↔ adjacent_in_order leb xs)); cycle 1.
  { split; [done|]. destruct Hmain as (b & E & Hb).
    destruct (alg_isSorted_adjacent leb xs) as (b' & E' & Hb').
    rewrite E, E'. f_equal. destruct b, b'; naive_solver. }
  destruct Hxs as (L' & cells & HL' & Hr & <-). simplify_eq.
  pose proof Hr as (Hh & _ & Hs & _ & Hn). unfold isSorted.
  destruct (decide (size_ L < 2)) as [Hlt|Hge].
  - exists true. split; [done|]. split; [|done]. intros _ i x y _ Hy.
    apply lookup_lt_Some in Hy. rewrite length_fmap in Hy. lia.
  - destruct (lookup_lt_is_Some_2 cells 0) as [[p x] H0]; [lia|].
    rewrite Hh, head_lookup, H0. cbn [fmap option_fmap option_map fst].
    pose proof (repr_length_le _ _ _ Hr) as Hle.
    destruct (isSorted_loop_spec leb _ _ _ Hr (length cells - 1) 0 p x
                (S (base.size (nodes s))) H0) as (b & Eb & Hb); [lia..|].
    exists b. split; [done|]. rewrite Hb. unfold adjacent_in_order. split.
    + intros H i y z. apply H. lia.
    + intros H j y z _. apply H.
Qed.

Lemma append_assoc (a b c : string) : (a +:+ b) +:+ c = a +:+ b +:+ c.
Proof.
  induction a as [|ch a IH]; [done|].
  change (String ch ((a +:+ b) +:+ c) = String ch (a +:+ b +:+ c)).
  by rewrite IH.
Qed.

Lemma print_loop_spec (show : T → string) h L cells : repr h L cells →
  ∀ n i os fuel, (i + n = length cells)%nat → (n ≤ fuel)%nat →
    print_loop show fuel h (fst <$> cells !! i) os
    = Ok (os +:+ foldr (λ x out, "(" +:+ show x +:+ ")" +:+ out) ""
                   (drop i cells.*2)).
Proof.
  intros (_ & _ & _ & _ & Hn). induction n as [|n IH]; intros i os fuel Hi Hf.
  - rewrite lookup_ge_None_2 by lia.
    rewrite drop_ge by (rewrite length_fmap; lia). simpl.
    assert (os +:+ "" = os) as ->.
    { clear. induction os as [|ch os IH]; [done|].
      change (String ch (os +:+ "") = String ch os). by rewrite IH. }
    by destruct fuel.
  - destruct (lookup_lt_is_Some_2 cells i) as [[p x] Hp]; [lia|].
    destruct fuel as [|fuel]; [lia|]. rewrite Hp.
    cbn [print_loop fmap option_fmap option_map fst].
    rewrite (Hn _ _ _ Hp). cbn [deref mbind result_bind data next node_at].
    rewrite IH by lia.
    rewrite (drop_S _ x i) by by rewrite list_lookup_fmap, Hp.
    cbn [foldr]. by rewrite !append_assoc.
Qed.

(** X15. On a well-formed list print writes an opening bracket, each item
    between parentheses from head to tail, and a closing bracket, after
    what the stream already holds; an empty list gives "[]". *)
Theorem print_rendering (show : T → string) s this L xs os :
  objs s !! this = Some L → holds s this xs →
  print show os (nodes s) L = Ok (os +:+ rendering show xs).
Proof.
  intros HL (L' & cells & HL' & Hr & <-). simplify_eq.
  pose proof Hr as (Hh & _). pose proof (repr_length_le _ _ _ Hr) as Hle.
  unfold print. rewrite Hh, head_lookup.
  rewrite (print_loop_spec show _ _ _ Hr (length cells)) by lia.
  cbn [mbind result_bind]. f_equal. rewrite drop_0. unfold rendering.
  rewrite !append_assoc. do 2 f_equal.
  induction (cells.*2) as [|x xs IH]; [done|].
  cbn [foldr]. by rewrite !append_assoc, IH.
Qed.

(** Walks along one of the two links *)

Lemma path_unique (sel : @Node T → option loc) h : ∀ ps ps' cur,
  path sel h cur ps → path sel h cur ps' → ps = ps'.
Proof.
  induction ps as [|q ps IH]; intros [|q' ps'] cur H1 H2; simpl in *; try done.
  - destruct H2 as (? & _). congruence.
  - destruct H1 as (? & _). congruence.
  - destruct H1 as (-> & n & Hq & H1).
    destruct H2 as ([= <-] & n' & Hq' & H2). simplify_eq.
    f_equal. by eapply IH.
Qed.

Lemma path_drop (sel : @Node T → option loc) h : ∀ ps i cur q,
  path sel h cur ps → ps !! i = Some q → path sel h (Some q) (drop i ps).
Proof.
  induction ps as [|q0 ps IH]; intros i cur q H Hi; [done|].
  destruct H as (-> & n & Hq & H). destruct i as [|i]; simpl in *.
  - simplify_eq. eauto.
  - by eapply IH.
Qed.

Lemma path_NoDup (sel : @Node T → option loc) h : ∀ ps cur,
  path sel h cur ps → NoDup ps.
Proof.
  induction ps as [|q ps IH]; intros cur H; simpl; [constructor|].
  pose proof H as (-> & n & Hq & H'). apply NoDup_cons. split; [|eauto].
  intros [i Hi]%list_elem_of_lookup.
  pose proof (path_drop _ _ _ _ _ _ H' Hi) as Hd.
  pose proof (path_unique _ _ _ _ _ H Hd) as E.
  apply (f_equal length) in E. rewrite length_drop in E. simpl in E. lia.
Qed.

Lemma path_length_le (sel : @Node T → option loc) h ps cur :
  path sel h cur ps → (length ps ≤ base.size h)%nat.
Proof.
  intros H. rewrite <- size_dom.
  rewrite <- (size_list_to_set (C:=gset loc)) by by eapply path_NoDup.
  apply subseteq_size. intros q Hq. apply elem_of_list_to_set in Hq.
  apply elem_of_dom. revert cur H Hq.
  induction ps as [|q0 ps IH]; intros cur H Hq; simpl in *.
  - by apply elem_of_nil in Hq.
  - destruct H as (-> & n & Hq0 & H).
    apply elem_of_cons in Hq as [->|Hq]; [by eauto|by eapply IH].
Qed.

Lemma count_loop_path h : ∀ ps fuel cur k,
  path next h cur ps → (length ps ≤ fuel)%nat →
  count_loop fuel h cur k = Ok (k + Z.of_nat (length ps)).
Proof.
  induction ps as [|q ps IH]; intros fuel cur k H Hf; simpl in *.
  - subst. destruct fuel; simpl; f_equal; lia.
  - destruct H as (-> & n & Hq & H). destruct fuel as [|fuel]; [lia|].
    simpl. rewrite Hq. simpl. rewrite (IH fuel) by (done || lia). f_equal. lia.
Qed.

Lemma forward_loop_path h : ∀ ps fuel cur acc,
  path next h cur ps → (length ps ≤ fuel)%nat →
  forward_loop fuel h cur acc = Ok (acc ++ ps).
Proof.
  induction ps as [|q ps IH]; intros fuel cur acc H Hf; simpl in *.
  - subst. rewrite app_nil_r. by destruct fuel.
  - destruct H as (-> & n & Hq & H). destruct fuel as [|fuel]; [lia|].
    simpl. rewrite Hq. simpl. rewrite (IH fuel) by (done || lia).
    by rewrite <- app_assoc.
Qed.

Lemma reverse_loop_path h : ∀ ps fuel cur acc,
  path prev h cur ps → (length ps ≤ fuel)%nat →
  reverse_loop fuel h cur acc = Ok (reverse ps ++ acc).
Proof.
  induction ps as [|q ps IH]; intros fuel cur acc H Hf; simpl in *.
  - subst. by destruct fuel.
  - destruct H as (-> & n & Hq & H). destruct fuel as [|fuel]; [lia|].
    simpl. rewrite Hq. simpl. rewrite (IH fuel) by (done || lia).
    by rewrite reverse_cons, <- app_assoc.
Qed.

(** X16. Whenever following [next] from the head ends, assertCorrectSize
    returns true if the number of nodes met is [size_] and throws
    otherwise: no wrong size counter passes the check. *)
Theorem assertCorrectSize_detects h L ps :
  path next h (head_ L) ps →
  assertCorrectSize h L
  = if decide (Z.of_nat (length ps) = size_ L) then Ok true
    else Throw (bug "Error in assertCorrectSize: ").
Proof.
  intros H. pose proof (path_length_le _ _ _ _ H) as Hle.
  unfold assertCorrectSize. rewrite (count_loop_path h ps) by (done || lia).
  cbn [mbind result_bind]. rewrite Z.add_0_l.
  destruct (decide (Z.of_nat (length ps) = size_ L)) as [Heq|Hne].
  - by rewrite decide_False by (intros ?; done).
  - by rewrite decide_True.
Qed.

(** X17. Whenever following [next] from the head and following [prev] from
    the tail both end, assertPrevLinks returns true if the backward walk
    met the nodes of the forward walk in the opposite order and throws
    otherwise. *)
Theorem assertPrevLinks_detects h L fs bs :
  path next h (head_ L) fs → path prev h (tail_ L) bs →
  assertPrevLinks h L
  = if decide (fs = reverse bs) then Ok true
    else Throw (bug "Error in assertPrevLinks: ").
Proof.
  intros Hf Hb. pose proof (path_length_le _ _ _ _ Hf) as Hlf.
  pose proof (path_length_le _ _ _ _ Hb) as Hlb.
  unfold assertPrevLinks.
  rewrite (forward_loop_path h fs) by (done || lia).
  rewrite (reverse_loop_path h bs) by (done || lia).
  cbn [mbind result_bind]. rewrite app_nil_r. simpl.
  destruct (decide (fs = reverse bs)) as [Heq|Hne].
  - by rewrite bool_decide_true.
  - by rewrite bool_decide_false.
Qed.

End More.

(** *** Witnesses on the sample run, continued *)

Lemma demo_obj_1 : objs demo_state !! 1%positive = Some demo_list_1.
Proof. by vm_compute. Qed.

Lemma demo_obj_2 : objs demo_state !! 2%positive = Some demo_list_2.
Proof. by vm_compute. Qed.

Lemma demo_obj_3 : objs demo_state !! 3%positive = Some empty_list.
Proof. by vm_compute. Qed.

Lemma demo_repr_1 : repr (nodes demo_state) demo_list_1 demo_cells_1.
Proof.
  split_and!; [done..| |].
  - apply NoDup_cons. split; [set_solver|]. apply NoDup_singleton.
  - intros [|[|i]] p x Hi; simplify_eq/=; by vm_compute.
Qed.

Lemma demo_repr_2 : repr (nodes demo_state) demo_list_2 demo_cells_2.
Proof.
  split_and!; [done..| |].
  - apply NoDup_singleton.
  - intros [|i] p x Hi; simplify_eq/=; by vm_compute.
Qed.

Lemma demo_holds_1 : holds demo_state 1%positive [3; 5].
Proof. exists demo_list_1, demo_cells_1. by split_and!; [apply demo_obj_1|apply demo_repr_1|]. Qed.

Lemma demo_holds_2 : holds demo_state 2%positive [3].
Proof. exists demo_list_2, demo_cells_2. by split_and!; [apply demo_obj_2|apply demo_repr_2|]. Qed.

Lemma int_neqb_irrefl x : int_neqb x x = false.
Proof. unfold int_neqb. by rewrite Z.eqb_refl. Qed.

Lemma pushFront_prepends_witness :
  reachable demo_state ∧ holds demo_state 1%positive [3; 5] ∧
  ∃ s', exec (Call 1%positive (PushFront 9)) demo_state = Ok s' ∧
    holds s' 1%positive (9 :: [3; 5]) ∧
    (∀ o ys, o ≠ 1%positive → holds demo_state o ys → holds s' o ys).
Proof.
  split; [exact demo_reachable|]. split; [exact demo_holds_1|].
  exact (pushFront_prepends demo_state 1%positive [3; 5] 9
           demo_reachable demo_holds_1).
Defined.

Lemma pushBack_appends_witness :
  reachable demo_state ∧ holds demo_state 1%positive [3; 5] ∧
  ∃ s', exec (Call 1%positive (PushBack 9)) demo_state = Ok s' ∧
    holds s' 1%positive ([3; 5] ++ [9]) ∧
    (∀ o ys, o ≠ 1%positive → holds demo_state o ys → holds s' o ys).
Proof.
  split; [exact demo_reachable|]. split; [exact demo_holds_1|].
  exact (pushBack_appends demo_state 1%positive [3; 5] 9
           demo_reachable demo_holds_1).
Defined.

Lemma popFront_drops_first_witness :
  reachable demo_state ∧ holds demo_state 1%positive [3; 5] ∧
  ∃ s', exec (Call 1%positive PopFront) demo_state = Ok s' ∧
    holds s' 1%positive (tail [3; 5]) ∧
    (∀ o ys, o ≠ 1%positive → holds demo_state o ys → holds s' o ys).
Proof.
  split; [exact demo_reachable|]. split; [exact demo_holds_1|].
  exact (popFront_drops_first demo_state 1%positive [3; 5]
           demo_reachable demo_holds_1).
Defined.

Lemma popBack_drops_last_witness :
  reachable demo_state ∧ holds demo_state 1%positive [3; 5] ∧
  ∃ s', exec (Call 1%positive PopBack) demo_state = Ok s' ∧
    holds s' 1%positive (removelast [3; 5]) ∧
    (∀ o ys, o ≠ 1%positive → holds demo_state o ys → holds s' o ys).
Proof.
  split; [exact demo_reachable|]. split; [exact demo_holds_1|].
  exact (popBack_drops_last demo_state 1%positive [3; 5]
           demo_reachable demo_holds_1).
Defined.

Lemma front_back_values_witness :
  objs demo_state !! 1%positive = Some demo_list_1 ∧
  holds demo_state 1%positive [3; 5] ∧
  front (nodes demo_state) demo_list_1 = Ok 3 ∧
  back (nodes demo_state) demo_list_1 = Ok 5.
Proof.
  split; [exact demo_obj_1|]. split; [exact demo_holds_1|].
  pose proof (front_back_values demo_state 1%positive demo_list_1 [3; 5]
                demo_obj_1 demo_holds_1) as [Hf Hb].
  exact (conj (Hf 3 eq_refl) (Hb 5 eq_refl)).
Defined.

Lemma clear_frees_witness :
  reachable demo_state ∧ objs demo_state !! 1%positive = Some demo_list_1 ∧
  repr (nodes demo_state) demo_list_1 demo_cells_1 ∧
  ∃ s', exec (Call 1%positive Clear) demo_state = Ok s' ∧
    objs s' !! 1%positive = Some empty_list ∧ holds s' 1%positive [] ∧
    (∀ q, q ∈ demo_cells_1.*1 → nodes s' !! q = None) ∧
    (∀ q, q ∉ demo_cells_1.*1 → nodes s' !! q = nodes demo_state !! q) ∧
    (∀ o ys, o ≠ 1%positive → holds demo_state o ys → holds s' o ys).
Proof.
  split; [exact demo_reachable|]. split; [exact demo_obj_1|].
  split; [exact demo_repr_1|].
  exact (clear_frees demo_state 1%positive demo_list_1 demo_cells_1
           demo_reachable demo_obj_1 demo_repr_1).
Defined.

Lemma nodes_owned_witness :
  reachable demo_state ∧
  (∀ q, is_Some (nodes demo_state !! q) →
     ∃ o L cells, objs demo_state !! o = Some L ∧
       repr (nodes demo_state) L cells ∧ q ∈ cells.*1).
Proof.
  split; [exact demo_reachable|].
  exact (proj1 (nodes_owned demo_state demo_reachable)).
Defined.

Lemma operator_assign_copies_witness :
  reachable demo_state ∧ 2%positive ≠ 1%positive ∧
  is_Some (objs demo_state !! 2%positive) ∧
  holds demo_state 1%positive [3; 5] ∧
  ∃ s', exec (Call 2%positive (Assign 1%positive)) demo_state = Ok s' ∧
    holds s' 2%positive [3; 5] ∧
    (∀ o ys, o ≠ 2%positive → holds demo_state o ys → holds s' o ys).
Proof.
  assert (Hne : 2%positive ≠ 1%positive) by done.
  assert (Hobj : is_Some (objs demo_state !! 2%positive))
    by (rewrite demo_obj_2; eauto).
  split; [exact demo_reachable|]. split; [exact Hne|]. split; [exact Hobj|].
  split; [exact demo_holds_1|].
  exact (operator_assign_copies demo_state 2%positive 1%positive [3; 5]
           demo_reachable Hne Hobj demo_holds_1).
Defined.


Lemma destroy_frees_witness :
  reachable demo_state ∧ objs demo_state !! 1%positive = Some demo_list_1 ∧
  repr (nodes demo_state) demo_list_1 demo_cells_1 ∧
  ∃ s', exec (Delete 1%positive) demo_state = Ok s' ∧
    objs s' !! 1%positive = None ∧
    (∀ q, q ∈ demo_cells_1.*1 → nodes s' !! q = None) ∧
    (∀ q, q ∉ demo_cells_1.*1 → nodes s' !! q = nodes demo_state !! q) ∧
    (∀ o ys, o ≠ 1%positive → holds demo_state o ys → holds s' o ys).
Proof.
  split; [exact demo_reachable|]. split; [exact demo_obj_1|].
  split; [exact demo_repr_1|].
  exact (destroy_frees demo_state 1%positive demo_list_1 demo_cells_1
           demo_reachable demo_obj_1 demo_repr_1).
Defined.

Lemma equals_well_formed_witness :
  objs demo_state !! 1%positive = Some demo_list_1 ∧
  objs demo_state !! 2%positive = Some demo_list_2 ∧
  holds demo_state 1%positive [3; 5] ∧ holds demo_state 2%positive [3] ∧
  ∃ r, equals int_neqb (nodes demo_state) demo_list_1 demo_list_2 = Ok r ∧
    (r = true ↔ length [3; 5] = length [3] ∧ agree int_neqb [3; 5] [3]).
Proof.
  split; [exact demo_obj_1|].
  split; [exact demo_obj_2|]. split; [exact demo_holds_1|].
  split; [exact demo_holds_2|].
  exact (equals_well_formed int_neqb demo_state 1%positive 2%positive
           demo_list_1 demo_list_2 [3; 5] [3]
           demo_obj_1 demo_obj_2 demo_holds_1 demo_holds_2).
Defined.

Lemma copy_equals_witness :
  reachable demo_state ∧ 2%positive ≠ 1%positive ∧
  is_Some (objs demo_state !! 2%positive) ∧
  is_Some (objs demo_state !! 1%positive) ∧
  (∀ x, int_neqb x x = false) ∧
  ∃ s' L1 L2, exec (Call 2%positive (Assign 1%positive)) demo_state = Ok s' ∧
    objs s' !! 2%positive = Some L1 ∧ objs s' !! 1%positive = Some L2 ∧
    equals int_neqb (nodes s') L1 L2 = Ok true ∧
    equals int_neqb (nodes s') L2 L1 = Ok true.
Proof.
  assert (Hne : 2%positive ≠ 1%positive) by done.
  assert (H2 : is_Some (objs demo_state !! 2%positive))
    by (rewrite demo_obj_2; eauto).
  assert (H1 : is_Some (objs demo_state !! 1%positive))
    by (rewrite demo_obj_1; eauto).
  split; [exact demo_reachable|]. split; [exact Hne|]. split; [exact H2|].
  split; [exact H1|]. split; [exact int_neqb_irrefl|].
  exact (copy_equals int_neqb demo_state 2%positive 1%positive
           demo_reachable Hne H2 H1 int_neqb_irrefl).
Defined.

Lemma isSorted_adjacent_witness :
  objs demo_state !! 1%positive = Some demo_list_1 ∧
  holds demo_state 1%positive [3; 5] ∧
  (∃ b, isSorted Z.leb (nodes demo_state) demo_list_1 = Ok b ∧
     (b = true ↔ adjacent_in_order Z.leb [3; 5])) ∧
  isSorted Z.leb (nodes demo_state) demo_list_1 = Alg.isSorted Z.leb [3; 5].
Proof.
  split; [exact demo_obj_1|]. split; [exact demo_holds_1|].
  exact (isSorted_adjacent Z.leb demo_state 1%positive demo_list_1 [3; 5]
           demo_obj_1 demo_holds_1).
Defined.

Lemma print_rendering_witness :
  objs demo_state !! 1%positive = Some demo_list_1 ∧
  holds demo_state 1%positive [3; 5] ∧
  rendering (pretty : Z → string) [3; 5] = "[(3)(5)]" ∧
  print (pretty : Z → string) "out: " (nodes demo_state) demo_list_1
  = Ok ("out: " +:+ rendering (pretty : Z → string) [3; 5]).
Proof.
  split; [exact demo_obj_1|].
  split; [exact demo_holds_1|]. split; [by vm_compute|].
  exact (print_rendering pretty demo_state 1%positive demo_list_1 [3; 5]
           "out: " demo_obj_1 demo_holds_1).
Defined.

Lemma bad_heap_long_path : path next bad_heap (head_ long_list) [2; 3]%positive.
Proof.
  simpl. split; [done|]. eexists. split; [by vm_compute|]. simpl.
  split; [done|]. eexists. split; [by vm_compute|]. done.
Qed.

Lemma bad_heap_short_back_path :
  path prev bad_heap (tail_ wrong_tail_list) [2%positive].
Proof. simpl. split; [done|]. eexists. split; [by vm_compute|]. done. Qed.

Lemma assertCorrectSize_detects_witness :
  path next bad_heap (head_ long_list) [2; 3]%positive ∧
  assertCorrectSize bad_heap long_list
  = Throw (bug "Error in assertCorrectSize: ").
Proof.
  split; [exact bad_heap_long_path|].
  exact (assertCorrectSize_detects bad_heap long_list [2; 3]%positive
           bad_heap_long_path).
Defined.

Lemma assertPrevLinks_detects_witness :
  path next bad_heap (head_ wrong_tail_list) [2; 3]%positive ∧
  path prev bad_heap (tail_ wrong_tail_list) [2%positive] ∧
  assertPrevLinks bad_heap wrong_tail_list
  = Throw (bug "Error in assertPrevLinks: ").
Proof.
  split; [exact bad_heap_long_path|]. split; [exact bad_heap_short_back_path|].
  exact (assertPrevLinks_detects bad_heap wrong_tail_list [2; 3]%positive
           [2%positive] bad_heap_long_path bad_heap_short_back_path).
Defined.

End MemFacts.

(** ** The algorithms: proofs *)

Module AlgFacts.
Import Alg.

Section Container.

Context {A : Type}.
Implicit Types (l : list A) (x : A).

Lemma back_snoc l x : back (l ++ [x]) = Ok x.
Proof. unfold back. by rewrite last_snoc. Qed.

Lemma popBack_snoc l x : popBack (l ++ [x]) = l.
Proof. apply removelast_last. Qed.

Lemma size_nonneg l : 0 ≤ size l.
Proof. unfold size. lia. Qed.

End Container.

Section Split.

Context {T : Type}.
Implicit Types (l left right : list T).

Lemma splitHalves_loop_spec : ∀ n left right,
  (n ≤ length left)%nat →
  splitHalves_loop n left right
  = Ok (take (length left - n) left, drop (length left - n) left ++ right).
Proof.
  induction n as [|n IH]; intros left right Hn; simpl.
  - rewrite Nat.sub_0_r, take_ge, drop_ge by lia. done.
  - destruct left as [|x left _] using rev_ind; [simpl in Hn; lia|].
    rewrite length_app in Hn |- *. simpl in Hn |- *.
    rewrite back_snoc. simpl. rewrite popBack_snoc. unfold pushFront.
    rewrite IH by lia.
    replace (length left + 1 - S n)%nat with (length left - n)%nat by lia.
    rewrite take_app_le, drop_app_le by lia. by rewrite <- app_assoc.
Qed.

Lemma half_quot l :
  Z.to_nat (Z.quot (size l) 2) = (length l / 2)%nat.
Proof.
  unfold size. rewrite Z.quot_div_nonneg by lia.
  rewrite <- (Nat2Z.inj_div _ 2). apply Nat2Z.id.
Qed.

Lemma splitHalves_eq l :
  splitHalves l
  = Ok [take (length l - length l / 2) l; drop (length l - length l / 2) l].
Proof.
  unfold splitHalves. destruct (size l <? 2) eqn:E.
  - apply Z.ltb_lt in E. unfold size in E.
    assert (length l / 2 = 0)%nat as -> by (apply Nat.div_small; lia).
    rewrite Nat.sub_0_r, take_ge, drop_ge by lia. done.
  - rewrite half_quot. rewrite splitHalves_loop_spec.
    + simpl. by rewrite app_nil_r.
    + apply Nat.Div0.div_le_upper_bound. lia.
Qed.

(** C4. splitHalves returns two lists: the right one is made of the
    floor(n/2) last elements in their order, the left one of the elements
    before them in their order, so that the sizes add up to n and left
    followed by right is the original sequence; when n < 2 the left one is the
    whole list and the right one is empty. *)
Theorem splitHalves_halves l :
  ∃ left right,
    splitHalves l = Ok [left; right] ∧
    size left + size right = size l ∧
    size right = size l `div` 2 ∧
    right = drop (length l - length l / 2) l ∧
    left = take (length l - length l / 2) l ∧
    left ++ right = l ∧
    (size l < 2 → left = l ∧ right = []).
Proof.
  eexists _, _. split; [apply splitHalves_eq|].
  assert (Hhalf : (length l / 2 ≤ length l)%nat).
  { apply Nat.Div0.div_le_upper_bound. lia. }
  split_and!; try done.
  - unfold size. rewrite length_take, length_drop. lia.
  - unfold size. rewrite length_drop.
    replace (length l - (length l - length l / 2))%nat
      with (length l / 2)%nat by lia.
    by rewrite (Nat2Z.inj_div _ 2).
  - apply take_drop.
  - intros Hs. unfold size in Hs.
    assert (length l / 2 = 0)%nat as -> by (apply Nat.div_small; lia).
    rewrite Nat.sub_0_r, take_ge, drop_ge by lia. done.
Qed.

Lemma explode_loop_spec : ∀ fuel l lists,
  (length l ≤ fuel)%nat →
  explode_loop fuel l lists = Ok (lists ++ map (λ x, [x]) l).
Proof.
  induction fuel as [|fuel IH]; intros [|x l] lists Hf; simpl in *;
    try (by rewrite app_nil_r); [lia|].
  unfold pushBack. rewrite IH by lia. by rewrite <- app_assoc.
Qed.

Lemma explode_eq l : explode l = Ok (map (λ x, [x]) l).
Proof. unfold explode. by rewrite explode_loop_spec. Qed.

(** X14. explode returns one list for each item of the list, in the order of
    the items, each holding that item alone; put end to end they give the
    list back. *)
Theorem explode_singletons l :
  ∃ lists, explode l = Ok lists ∧
    length lists = length l ∧
    (∀ i x, l !! i = Some x → lists !! i = Some [x]) ∧
    concat lists = l.
Proof.
  exists ((λ x, [x]) <$> l). split; [apply explode_eq|]. split_and!.
  - by rewrite length_fmap.
  - intros i x Hi. by rewrite list_lookup_fmap, Hi.
  - induction l as [|x l IH]; simpl; [done|]. by f_equal.
Qed.

End Split.

Section Merge.

Context {T : Type} (leb : T → T → bool).
Implicit Types (x : T) (l A B : list T).

Local Abbreviation le := (Alg.le leb).
Local Abbreviation merge := (Alg.merge leb).
Local Abbreviation total := (Alg.total leb).
Local Abbreviation transitive := (Alg.transitive leb).
Local Abbreviation antisymmetric := (Alg.antisymmetric leb).

Lemma merge_nil_l l : merge [] l = l.
Proof. by destruct l. Qed.

Lemma merge_nil_r l : merge l [] = l.
Proof. by destruct l. Qed.

Lemma merge_cons a A b B :
  merge (a :: A) (b :: B)
  = if leb a b then a :: merge A (b :: B) else b :: merge (a :: A) B.
Proof. done. Qed.

Lemma merge_perm : ∀ A B, merge A B ≡ₚ A ++ B.
Proof.
  induction A as [|a A IHA]; intros B; [by rewrite merge_nil_l|].
  induction B as [|b B IHB]; [by rewrite merge_nil_r, app_nil_r|].
  rewrite merge_cons. destruct (leb a b).
  - simpl. by rewrite IHA.
  - rewrite IHB. by rewrite <- Permutation_middle.
Qed.

Lemma merge_length A B :
  length (merge A B) = (length A + length B)%nat.
Proof. by rewrite merge_perm, length_app. Qed.

(** isSorted and the inductive notion of a sorted list *)

Lemma isSorted_loop_Sorted : ∀ l x,
  isSorted_loop leb x l = true ↔ Sorted le (x :: l).
Proof.
  induction l as [|y l IH]; intros x; simpl.
  - split; [|done]. intros _. by repeat constructor.
  - destruct (leb x y) eqn:E; simpl.
    + rewrite IH. split.
      * intros H. constructor; [done|]. by constructor.
      * by inversion 1.
    + split; [done|]. inversion 1 as [|?? _ Hhd]; subst.
      inversion Hhd as [|?? Hle]; subst. unfold Alg.le in Hle. congruence.
Qed.

Lemma isSorted_eq l :
  isSorted leb l
  = Ok (match l with [] => true | x :: rest => isSorted_loop leb x rest end).
Proof.
  unfold isSorted, size. destruct l as [|x [|y l]]; try done.
  destruct (Z.ltb_spec (Z.of_nat (length (x :: y :: l))) 2) as [H|H]; [|done].
  simpl in H. lia.
Qed.

Lemma isSorted_Sorted l : isSorted leb l = Ok true ↔ Sorted le l.
Proof.
  rewrite isSorted_eq. destruct l as [|x l].
  - split; [constructor|done].
  - rewrite <- isSorted_loop_Sorted. split; [by intros [= ->]|by intros ->].
Qed.

Lemma HdRel_merge x A B :
  HdRel le x A → HdRel le x B → HdRel le x (merge A B).
Proof.
  destruct A as [|a A], B as [|b B]; try done.
  rewrite merge_cons. intros HA HB. destruct (leb a b); constructor.
  - by inversion HA.
  - by inversion HB.
Qed.

Lemma merge_Sorted : total → ∀ A B,
  Sorted le A → Sorted le B → Sorted le (merge A B).
Proof.
  intros Htot. induction A as [|a A IHA]; intros B HA HB;
    [by rewrite merge_nil_l|].
  induction B as [|b B IHB]; [by rewrite merge_nil_r|].
  rewrite merge_cons. destruct (leb a b) eqn:E.
  - inversion HA; subst. constructor; [by apply IHA|].
    apply HdRel_merge; [done|by constructor].
  - inversion HB; subst. constructor; [by apply IHB|].
    apply HdRel_merge; [|done]. constructor.
    destruct (Htot a b) as [H|H]; [congruence|done].
Qed.

Lemma filter_none (f : T → bool) l :
  (∀ y, In y l → f y = false) → List.filter f l = [].
Proof.
  induction l as [|y l IH]; intros H; simpl; [done|].
  rewrite (H y) by by left. apply IH. intros z Hz. apply H. by right.
Qed.

Lemma transitive_Transitive : transitive → Transitive le.
Proof. intros Htr a b c. apply Htr. Qed.

(* Nothing of a sorted list that starts above [b] compares equal to
   something that compares equal to [b]. *)
Lemma filter_eqv_above a A b x :
  transitive → Sorted le (a :: A) → leb a b = false →
  eqv leb x b = true → List.filter (eqv leb x) (a :: A) = [].
Proof.
  intros Htr HA Hab Hxb. apply andb_true_iff in Hxb as [Hxb _].
  pose proof (transitive_Transitive Htr) as HT.
  pose proof (@Sorted_StronglySorted _ _ HT _ HA) as HS.
  clear HA. apply StronglySorted_inv in HS as [_ HA].
  rewrite List.Forall_forall in HA.
  apply filter_none. intros y Hy.
  destruct (eqv leb x y) eqn:E; [|done]. exfalso.
  apply andb_true_iff in E as [_ Hyx].
  assert (leb a x = true) as Hax.
  { destruct Hy as [<-|Hy]; [done|]. apply (Htr a y x); [|done]. by apply HA. }
  pose proof (Htr _ _ _ Hax Hxb). congruence.
Qed.

Lemma merge_stable : transitive → ∀ A B x,
  Sorted le A →
  List.filter (eqv leb x) (merge A B)
  = List.filter (eqv leb x) A ++ List.filter (eqv leb x) B.
Proof.
  intros Htr. induction A as [|a A IHA]; intros B x HA;
    [by rewrite merge_nil_l|].
  induction B as [|b B IHB]; [by rewrite merge_nil_r, app_nil_r|].
  rewrite merge_cons. destruct (leb a b) eqn:E.
  - simpl. inversion HA; subst. rewrite IHA by done.
    by destruct (eqv leb x a).
  - change (List.filter (eqv leb x) (b :: merge (a :: A) B))
      with (if eqv leb x b then b :: List.filter (eqv leb x) (merge (a :: A) B)
            else List.filter (eqv leb x) (merge (a :: A) B)).
    rewrite IHB.
    change (List.filter (eqv leb x) (b :: B))
      with (if eqv leb x b then b :: List.filter (eqv leb x) B
            else List.filter (eqv leb x) B).
    destruct (eqv leb x b) eqn:Exb; [|done].
    by rewrite (filter_eqv_above a A b x).
Qed.

(** C3. For sorted A and B, merge(A, B) is sorted, has length(A) + length(B)
    elements, holds exactly the elements of A and of B, and is stable: for
    every value x, the elements of the result that compare equal to x are
    those of A, in the order of A, followed by those of B, in the order of
    B. *)
Theorem merge_correct A B :
  total → transitive →
  isSorted leb A = Ok true → isSorted leb B = Ok true →
  isSorted leb (merge A B) = Ok true ∧
  length (merge A B) = (length A + length B)%nat ∧
  merge A B ≡ₚ A ++ B ∧
  ∀ x, List.filter (eqv leb x) (merge A B)
       = List.filter (eqv leb x) A ++ List.filter (eqv leb x) B.
Proof.
  intros Htot Htr HA%isSorted_Sorted HB%isSorted_Sorted. split_and!.
  - apply isSorted_Sorted. by apply merge_Sorted.
  - apply merge_length.
  - apply merge_perm.
  - intros x. by apply merge_stable.
Qed.

(** The two sorts, over any [merge] *)

Section Sorts.

Context (merge_ : list T → list T → list T).

Lemma size_lt_2 l : (size l <? 2) = true ↔ (length l < 2)%nat.
Proof. unfold size. rewrite Z.ltb_lt. lia. Qed.

Lemma size_ge_2 l : (size l <? 2) = false ↔ (2 ≤ length l)%nat.
Proof. unfold size. rewrite Z.ltb_ge. lia. Qed.

Lemma mergeSortRecursive_short fuel l :
  (length l < 2)%nat → mergeSortRecursive merge_ fuel l = Ok l.
Proof. intros H%size_lt_2. destruct fuel; simpl; by rewrite H. Qed.

Lemma mergeSortRecursive_unfold fuel l :
  (2 ≤ length l)%nat →
  mergeSortRecursive merge_ (S fuel) l
  = (sortedLeft ← mergeSortRecursive merge_ fuel
                     (take (length l - length l / 2) l);
     sortedRight ← mergeSortRecursive merge_ fuel
                     (drop (length l - length l / 2) l);
     Ok (merge_ sortedLeft sortedRight)).
Proof.
  intros H%size_ge_2. cbn [mergeSortRecursive]. rewrite H, splitHalves_eq.
  cbn [mbind result_bind front back last].
  destruct (mergeSortRecursive merge_ fuel (take _ l)) as [sl|]; [|done].
  cbn [mbind result_bind assign_front back last].
  destruct (mergeSortRecursive merge_ fuel (drop _ l)) as [sr|]; done.
Qed.

Lemma halves_shorter l :
  (2 ≤ length l)%nat →
  (length (take (length l - length l / 2) l) < length l)%nat ∧
  (length (drop (length l - length l / 2) l) < length l)%nat.
Proof.
  intros H. rewrite length_take, length_drop.
  assert (1 ≤ length l / 2)%nat by (apply Nat.div_le_lower_bound; lia).
  assert (length l / 2 ≤ length l)%nat by (apply Nat.Div0.div_le_upper_bound; lia).
  assert (length l / 2 < length l)%nat by (apply Nat.div_lt; lia).
  lia.
Qed.

(* What holds of short lists and carries over a merge of the sorted halves
   holds of the result of mergeSortRecursive, which exists. *)
Lemma mergeSortRecursive_rule (P : list T → list T → Prop) :
  (∀ l, (length l < 2)%nat → P l l) →
  (∀ l a b, (2 ≤ length l)%nat →
     P (take (length l - length l / 2) l) a →
     P (drop (length l - length l / 2) l) b → P l (merge_ a b)) →
  ∀ fuel l, (length l ≤ fuel)%nat →
    ∃ r, mergeSortRecursive merge_ fuel l = Ok r ∧ P l r.
Proof.
  intros Hshort Hmerge. induction fuel as [|fuel IH]; intros l Hl.
  - exists l. split; [apply mergeSortRecursive_short; lia|apply Hshort; lia].
  - destruct (decide (length l < 2)%nat) as [Hs|Hs].
    { exists l. split; [by apply mergeSortRecursive_short|by apply Hshort]. }
    assert (2 ≤ length l)%nat as H2 by lia.
    destruct (halves_shorter l H2) as [Hleft Hright].
    destruct (IH (take (length l - length l / 2) l)) as (a & Ea & Pa); [lia|].
    destruct (IH (drop (length l - length l / 2) l)) as (b & Eb & Pb); [lia|].
    exists (merge_ a b). rewrite mergeSortRecursive_unfold by done.
    rewrite Ea. cbn [mbind result_bind]. rewrite Eb. cbn [mbind result_bind].
    split; [done|]. by apply Hmerge.
Qed.

Lemma iterative_step_eq a b wq :
  iterative_step merge_ (a :: b :: wq) = Ok (wq ++ [merge_ a b]).
Proof. done. Qed.

Lemma iterative_loop_one fuel a : iterative_loop merge_ fuel [a] = Ok [a].
Proof. by destruct fuel. Qed.

Lemma iterative_loop_unfold fuel a b wq :
  iterative_loop merge_ (S fuel) (a :: b :: wq)
  = iterative_loop merge_ fuel (wq ++ [merge_ a b]).
Proof.
  cbn [iterative_loop].
  assert ((size (a :: b :: wq) >? 1) = true) as ->.
  { unfold size. simpl length. apply Z.gtb_lt. lia. }
  by rewrite iterative_step_eq.
Qed.

(* What holds of a queue of one list and carries back over a round of the
   loop holds of the one list the loop ends with. *)
Lemma iterative_loop_rule (Q : list (list T) → list T → Prop) :
  (∀ a, Q [a] a) →
  (∀ a b wq r, Q (wq ++ [merge_ a b]) r → Q (a :: b :: wq) r) →
  ∀ fuel wq, (1 ≤ length wq)%nat → (length wq ≤ S fuel)%nat →
    ∃ r, iterative_loop merge_ fuel wq = Ok [r] ∧ Q wq r.
Proof.
  intros Hone Hstep. induction fuel as [|fuel IH]; intros wq H1 Hf.
  - destruct wq as [|a [|b wq]]; simpl in *; try lia.
    exists a. by split.
  - destruct wq as [|a [|b wq]]; [simpl in *; lia| |].
    + exists a. split; [apply iterative_loop_one|done].
    + destruct (IH (wq ++ [merge_ a b])) as (r & E & HQ).
      { rewrite length_app. simpl. lia. }
      { rewrite length_app. simpl in *. lia. }
      exists r. rewrite iterative_loop_unfold. split; [done|]. by apply Hstep.
Qed.

Lemma mergeSortIterative_short fuel l :
  (length l < 2)%nat → mergeSortIterative merge_ fuel l = Ok l.
Proof. intros H%size_lt_2. unfold mergeSortIterative. by rewrite H. Qed.

Lemma mergeSortIterative_rule (Q : list (list T) → list T → Prop) :
  (∀ a, Q [a] a) →
  (∀ a b wq r, Q (wq ++ [merge_ a b]) r → Q (a :: b :: wq) r) →
  ∀ fuel l, (2 ≤ length l)%nat → (length l ≤ S fuel)%nat →
    ∃ r, mergeSortIterative merge_ fuel l = Ok r ∧ Q (map (λ x, [x]) l) r.
Proof.
  intros Hone Hstep fuel l H2 Hf.
  destruct (iterative_loop_rule Q Hone Hstep fuel (map (λ x, [x]) l))
    as (r & E & HQ); [rewrite length_map; lia..|].
  exists r. split; [|done]. unfold mergeSortIterative.
  apply size_ge_2 in H2 as ->. rewrite explode_eq. simpl. by rewrite E.
Qed.

(** C9. Both sorts return on every list, given fuel for as many steps as
    the list is long: a list of two or more elements is split into two
    halves that are both strictly shorter, on which mergeSortRecursive
    recurses, and every round of the loop of mergeSortIterative takes two
    lists off the queue and puts one back, so that the queue shrinks by one
    until one list is left.  This holds whatever [merge] returns. *)
Theorem sorts_terminate fuel l :
  (length l ≤ fuel)%nat →
  (∃ r, mergeSortRecursive merge_ fuel l = Ok r) ∧
  (∃ r, mergeSortIterative merge_ fuel l = Ok r) ∧
  (2 ≤ size l → ∃ left right,
     splitHalves l = Ok [left; right] ∧
     (length left < length l)%nat ∧ (length right < length l)%nat) ∧
  (∀ workQueue, 1 < size workQueue →
     ∃ workQueue', iterative_step merge_ workQueue = Ok workQueue' ∧
       size workQueue' = size workQueue - 1) ∧
  (∀ workQueue, (1 ≤ length workQueue)%nat → (length workQueue ≤ S fuel)%nat →
     ∃ r, iterative_loop merge_ fuel workQueue = Ok [r]).
Proof.
  intros Hf. split_and!.
  - destruct (mergeSortRecursive_rule (λ _ _, True)) with (fuel := fuel) (l := l)
      as (r & E & _); eauto.
  - destruct (decide (length l < 2)%nat) as [Hs|Hs].
    { exists l. by apply mergeSortIterative_short. }
    destruct (mergeSortIterative_rule (λ _ _, True)) with (fuel := fuel) (l := l)
      as (r & E & _); eauto; lia.
  - intros H2. unfold size in H2. eexists _, _. split; [apply splitHalves_eq|].
    apply halves_shorter. lia.
  - intros [|a [|b wq]] H1; unfold size in H1; simpl in H1; try lia.
    eexists. split; [apply iterative_step_eq|].
    unfold size. rewrite length_app. simpl. lia.
  - intros wq H1 H2.
    destruct (iterative_loop_rule (λ _ _, True)) with (fuel := fuel) (wq := wq)
      as (r & E & _); eauto.
Qed.

(** X19. The recursion of mergeSortRecursive is no deeper than the base-2
    logarithm of the length of the list, rounded up: a depth of [fuel]
    is enough for a list of up to 2^fuel items. *)
Theorem mergeSortRecursive_depth fuel : ∀ l,
  (length l ≤ 2 ^ fuel)%nat → ∃ r, mergeSortRecursive merge_ fuel l = Ok r.
Proof.
  induction fuel as [|fuel IH]; intros l Hl.
  - exists l. apply mergeSortRecursive_short. simpl in Hl. lia.
  - destruct (decide (length l < 2)%nat) as [Hs|Hs].
    { exists l. by apply mergeSortRecursive_short. }
    rewrite Nat.pow_succ_r' in Hl.
    pose proof (Nat.div_mod_eq (length l) 2) as Hdm.
    pose proof (Nat.mod_upper_bound (length l) 2 ltac:(lia)) as Hmod.
    destruct (IH (take (length l - length l / 2) l)) as (sl & El).
    { rewrite length_take. lia. }
    destruct (IH (drop (length l - length l / 2) l)) as (sr & Er).
    { rewrite length_drop. lia. }
    exists (merge_ sl sr). rewrite mergeSortRecursive_unfold by lia.
    rewrite El. cbn [mbind result_bind]. by rewrite Er.
Qed.

Lemma iterative_loop_starved : ∀ fuel wq,
  (S fuel < length wq)%nat → iterative_loop merge_ fuel wq = Throw OutOfFuel.
Proof.
  induction fuel as [|fuel IH]; intros wq Hf.
  - destruct wq as [|sl [|sr wq]]; simpl in Hf; try lia.
    cbn [iterative_loop].
    assert ((size (sl :: sr :: wq) >? 1) = true) as ->; [|done].
    unfold size. simpl length. apply Z.gtb_lt. lia.
  - destruct wq as [|sl [|sr wq]]; simpl in Hf; try lia.
    rewrite iterative_loop_unfold. apply IH. rewrite length_app. simpl. lia.
Qed.

(** X20. On a list of n >= 2 items the loop of mergeSortIterative runs
    exactly n - 1 times: it is cut off by its fuel exactly when the fuel is
    less than n - 1. *)
Theorem mergeSortIterative_rounds fuel l :
  (2 ≤ length l)%nat →
  (mergeSortIterative merge_ fuel l = Throw OutOfFuel ↔ (S fuel < length l)%nat).
Proof.
  intros H2. split.
  - intros E. destruct (decide (S fuel < length l)%nat) as [|Hge]; [done|].
    destruct (mergeSortIterative_rule (λ _ _, True)) with (fuel := fuel) (l := l)
      as (r & Er & _); eauto; [lia|]. congruence.
  - intros Hf. unfold mergeSortIterative.
    apply size_ge_2 in H2 as ->. rewrite explode_eq. cbn [mbind result_bind].
    rewrite iterative_loop_starved; [done|]. by rewrite length_map.
Qed.

End Sorts.

(** The two sorts, with the merge of the spec *)

Lemma Sorted_short l : (length l < 2)%nat → Sorted le l.
Proof.
  destruct l as [|x [|y l]]; simpl; intros H; [by repeat constructor..|lia].
Qed.

Lemma mergeSortRecursive_sorts : total → ∀ fuel l,
  (length l ≤ fuel)%nat →
  ∃ r, mergeSortRecursive merge fuel l = Ok r ∧ Sorted le r ∧ r ≡ₚ l.
Proof.
  intros Htot.
  apply (mergeSortRecursive_rule merge (λ l r, Sorted le r ∧ r ≡ₚ l)).
  - intros l Hl. split; [by apply Sorted_short|done].
  - intros l sl sr _ [Hsl Hpl] [Hsr Hpr]. split; [by apply merge_Sorted|].
    by rewrite merge_perm, Hpl, Hpr, take_drop.
Qed.

Lemma mergeSortIterative_sorts : total → ∀ fuel l,
  (length l ≤ fuel)%nat →
  ∃ r, mergeSortIterative merge fuel l = Ok r ∧ Sorted le r ∧ r ≡ₚ l.
Proof.
  intros Htot fuel l Hf. destruct (decide (length l < 2)%nat) as [Hs|Hs].
  { exists l. split; [by apply mergeSortIterative_short|].
    split; [by apply Sorted_short|done]. }
  destruct (mergeSortIterative_rule merge
              (λ wq r, Forall (Sorted le) wq → Sorted le r ∧ r ≡ₚ concat wq))
    with (fuel := fuel) (l := l) as (r & E & HQ); [| |lia..|].
  - intros sl Hsl. apply Forall_inv in Hsl. simpl. by rewrite app_nil_r.
  - intros sl sr wq r IH Hall.
    apply Forall_cons in Hall as [Hsl Hall].
    apply Forall_cons in Hall as [Hsr Hall].
    destruct IH as [Hr Hp].
    { apply Forall_app. split; [done|].
      apply Forall_singleton. by apply merge_Sorted. }
    split; [done|]. rewrite Hp, concat_app. simpl.
    rewrite app_nil_r, merge_perm.
    etrans; [apply Permutation_app_comm|]. by rewrite <- app_assoc.
  - exists r. split; [done|]. destruct HQ as [Hr Hp].
    { apply Forall_forall. intros sl (x & -> & _)%list_elem_of_fmap.
      by repeat constructor. }
    split; [done|]. rewrite Hp. clear.
    induction l as [|x l IH]; simpl; [done|]. by rewrite IH.
Qed.

(** C1. For every list, mergeSort returns a list on which isSorted returns
    true, of the same size, with the same elements counted with their
    multiplicity. *)
Theorem mergeSort_correct l :
  total →
  ∃ r, mergeSort merge l = Ok r ∧
    isSorted leb r = Ok true ∧ size r = size l ∧ r ≡ₚ l.
Proof.
  intros Htot.
  destruct (mergeSortRecursive_sorts Htot (length l) l) as (r & E & Hs & Hp);
    [done|].
  exists r. split_and!; [done| | |done].
  - by apply isSorted_Sorted.
  - unfold size. by rewrite Hp.
Qed.

(** C2, as amended.  When [<=] is a total order under which two elements
    that compare equal are the same element (as for [int]), then on every
    list (empty, of one element, sorted, sorted backwards, with repeated
    values, or any other) mergeSortRecursive and mergeSortIterative return
    the same sequence. *)
Theorem sorts_agree l fuel1 fuel2 :
  total → transitive → antisymmetric →
  (length l ≤ fuel1)%nat → (length l ≤ fuel2)%nat →
  ∃ r, mergeSortRecursive merge fuel1 l = Ok r ∧
       mergeSortIterative merge fuel2 l = Ok r.
Proof.
  intros Htot Htr Hanti H1 H2.
  destruct (mergeSortRecursive_sorts Htot fuel1 l H1) as (r1 & E1 & Hs1 & Hp1).
  destruct (mergeSortIterative_sorts Htot fuel2 l H2) as (r2 & E2 & Hs2 & Hp2).
  exists r1. split; [done|]. rewrite E2. f_equal.
  pose proof (transitive_Transitive Htr) as HT.
  assert (AntiSymm (=) le) as HA by (intros a b; apply Hanti).
  apply (Sorted_unique le); [done..|]. by rewrite Hp1, Hp2.
Qed.

Lemma isSorted_short l : (length l < 2)%nat → isSorted leb l = Ok true.
Proof. intros H. apply isSorted_Sorted. by apply Sorted_short. Qed.

(** X18. With any merge that meets the contract of the header (two sorted
    lists give a sorted list of all their items), mergeSortRecursive and
    mergeSortIterative both return a sorted list of the items of the
    input. *)
Theorem sorts_correct_for (merge_ : list T → list T → list T) fuel l :
  merge_contract leb merge_ → (length l ≤ fuel)%nat →
  (∃ r, mergeSortRecursive merge_ fuel l = Ok r ∧
     isSorted leb r = Ok true ∧ r ≡ₚ l) ∧
  (∃ r, mergeSortIterative merge_ fuel l = Ok r ∧
     isSorted leb r = Ok true ∧ r ≡ₚ l).
Proof.
  intros Hm Hf. split.
  - apply (mergeSortRecursive_rule merge_
             (λ l r, isSorted leb r = Ok true ∧ r ≡ₚ l)); [| |done].
    + intros l0 Hl0. split; [by apply isSorted_short|done].
    + intros l0 sl sr _ [Hsl Hpl] [Hsr Hpr].
      destruct (Hm sl sr Hsl Hsr) as [Hs Hp]. split; [done|].
      by rewrite Hp, Hpl, Hpr, take_drop.
  - destruct (decide (length l < 2)%nat) as [Hs|Hs].
    { exists l. split; [by apply mergeSortIterative_short|].
      split; [by apply isSorted_short|done]. }
    destruct (mergeSortIterative_rule merge_
                (λ wq r, Forall (λ sl, isSorted leb sl = Ok true) wq →
                         isSorted leb r = Ok true ∧ r ≡ₚ concat wq))
      with (fuel := fuel) (l := l) as (r & E & HQ); [| |lia..|].
    + intros sl Hsl. apply Forall_inv in Hsl. simpl. by rewrite app_nil_r.
    + intros sl sr wq r IH Hall.
      apply Forall_cons in Hall as [Hsl Hall].
      apply Forall_cons in Hall as [Hsr Hall].
      destruct (Hm sl sr Hsl Hsr) as [Hs' Hp'].
      destruct IH as [Hr Hp].
      { apply Forall_app. split; [done|]. by apply Forall_singleton. }
      split; [done|]. rewrite Hp, concat_app. simpl.
      rewrite app_nil_r, Hp'.
      etrans; [apply Permutation_app_comm|]. by rewrite <- app_assoc.
    + exists r. split; [done|]. destruct HQ as [Hr Hp].
      { apply Forall_forall. intros sl (x & -> & _)%list_elem_of_fmap.
        apply isSorted_short. simpl. lia. }
      split; [done|]. rewrite Hp. clear.
      induction l as [|x l IH]; simpl; [done|]. by rewrite IH.
Qed.

End Merge.

(** *** The examples of the specification, and witnesses, with [int] data *)

Example mergeSort_example :
  mergeSort (merge Z.leb) [5; 3; 8; 1] = Ok [1; 3; 5; 8].
Proof. reflexivity. Qed.

Example mergeSort_empty :
  mergeSort (merge Z.leb) [] = Ok [] ∧
  front (@nil Z) = Throw (RuntimeError "front() called on empty LinkedList") ∧
  back (@nil Z) = Throw (RuntimeError "back() called on empty LinkedList").
Proof. done. Qed.

Example splitHalves_example : splitHalves [1; 2; 3] = Ok [[1; 2]; [3]].
Proof. reflexivity. Qed.

Example merge_example : merge Z.leb [1; 3; 5] [2; 2; 4] = [1; 2; 2; 3; 4; 5].
Proof. reflexivity. Qed.

Lemma Zleb_total : total Z.leb.
Proof. intros a b. rewrite !Z.leb_le. lia. Qed.

Lemma Zleb_transitive : transitive Z.leb.
Proof. intros a b c. rewrite !Z.leb_le. lia. Qed.

Lemma Zleb_antisymmetric : antisymmetric Z.leb.
Proof. intros a b. rewrite !Z.leb_le. lia. Qed.

Lemma key_leb_total : total key_leb.
Proof. intros a b. unfold key_leb. rewrite !Z.leb_le. lia. Qed.

Lemma key_leb_transitive : transitive key_leb.
Proof. intros a b c. unfold key_leb. rewrite !Z.leb_le. lia. Qed.

Lemma mergeSort_correct_witness :
  total Z.leb ∧
  ∃ r, mergeSort (merge Z.leb) [5; 3; 8; 1; 3] = Ok r ∧
    isSorted Z.leb r = Ok true ∧ size r = size [5; 3; 8; 1; 3] ∧
    r ≡ₚ [5; 3; 8; 1; 3].
Proof.
  split; [exact Zleb_total|].
  exact (mergeSort_correct Z.leb [5; 3; 8; 1; 3] Zleb_total).
Defined.

Lemma sorts_agree_witness :
  total Z.leb ∧ transitive Z.leb ∧ antisymmetric Z.leb ∧
  (length [5; 3; 8; 1; 3] ≤ 5)%nat ∧
  ∃ r, mergeSortRecursive (merge Z.leb) 5 [5; 3; 8; 1; 3] = Ok r ∧
       mergeSortIterative (merge Z.leb) 5 [5; 3; 8; 1; 3] = Ok r.
Proof.
  split; [exact Zleb_total|]. split; [exact Zleb_transitive|].
  split; [exact Zleb_antisymmetric|].
  assert (H : (length [5; 3; 8; 1; 3] ≤ 5)%nat) by (simpl; lia).
  split; [exact H|].
  exact (sorts_agree Z.leb [5; 3; 8; 1; 3] 5 5
           Zleb_total Zleb_transitive Zleb_antisymmetric H H).
Defined.

Lemma merge_correct_witness :
  let A := [(1, "A1"); (2, "A2"); (2, "A3")] in
  let B := [(2, "B1"); (2, "B2"); (4, "B3")] in
  total key_leb ∧ transitive key_leb ∧
  isSorted key_leb A = Ok true ∧ isSorted key_leb B = Ok true ∧
  merge key_leb A B
  = [(1, "A1"); (2, "A2"); (2, "A3"); (2, "B1"); (2, "B2"); (4, "B3")] ∧
  isSorted key_leb (merge key_leb A B) = Ok true ∧
  length (merge key_leb A B) = (length A + length B)%nat ∧
  merge key_leb A B ≡ₚ A ++ B ∧
  ∀ x, List.filter (eqv key_leb x) (merge key_leb A B)
       = List.filter (eqv key_leb x) A ++ List.filter (eqv key_leb x) B.
Proof.
  intros A B.
  assert (HA : isSorted key_leb A = Ok true) by reflexivity.
  assert (HB : isSorted key_leb B = Ok true) by reflexivity.
  split; [exact key_leb_total|]. split; [exact key_leb_transitive|].
  split; [exact HA|]. split; [exact HB|]. split; [reflexivity|].
  exact (merge_correct key_leb A B key_leb_total key_leb_transitive HA HB).
Defined.

Lemma sorts_terminate_witness :
  (length [5; 3; 8; 1; 3] ≤ 5)%nat ∧
  (∃ r, mergeSortRecursive (merge Z.leb) 5 [5; 3; 8; 1; 3] = Ok r) ∧
  (∃ r, mergeSortIterative (merge Z.leb) 5 [5; 3; 8; 1; 3] = Ok r).
Proof.
  assert (H : (length [5; 3; 8; 1; 3] ≤ 5)%nat) by (simpl; lia).
  split; [exact H|].
  pose proof (sorts_terminate (merge Z.leb) 5 [5; 3; 8; 1; 3] H) as (H1 & H2 & _).
  exact (conj H1 H2).
Defined.

(** C2, for every list and every total and transitive [<=], fails: on three
    records with the same key the recursive sort keeps their order while the
    iterative one, which merges the third list of its queue in front of the
    merge of the first two, puts the last record first.  The iterative sort
    is not stable. *)
Lemma sorts_differ_on_ties :
  let l := [(1, "a"); (1, "b"); (1, "c")] in
  total key_leb ∧ transitive key_leb ∧
  mergeSortRecursive (merge key_leb) (length l) l
  = Ok [(1, "a"); (1, "b"); (1, "c")] ∧
  mergeSortIterative (merge key_leb) (length l) l
  = Ok [(1, "c"); (1, "a"); (1, "b")] ∧
  ¬ same_output key_leb l.
Proof.
  intros l. split; [exact key_leb_total|]. split; [exact key_leb_transitive|].
  assert (E1 : mergeSortRecursive (merge key_leb) (length l) l
               = Ok [(1, "a"); (1, "b"); (1, "c")]) by reflexivity.
  assert (E2 : mergeSortIterative (merge key_leb) (length l) l
               = Ok [(1, "c"); (1, "a"); (1, "b")]) by reflexivity.
  split; [exact E1|]. split; [exact E2|].
  intros (r & H1 & H2). rewrite E1 in H1. rewrite E2 in H2. congruence.
Qed.

Lemma merge_meets_contract {T : Type} (leb : T → T → bool) :
  total leb → merge_contract leb (merge leb).
Proof.
  intros Htot A B HA%isSorted_Sorted HB%isSorted_Sorted. split.
  - apply isSorted_Sorted. by apply merge_Sorted.
  - apply merge_perm.
Qed.

Lemma sorts_correct_for_witness :
  merge_contract Z.leb (merge Z.leb) ∧ (length [5; 3; 8; 1; 3] ≤ 5)%nat ∧
  (∃ r, mergeSortRecursive (merge Z.leb) 5 [5; 3; 8; 1; 3] = Ok r ∧
     isSorted Z.leb r = Ok true ∧ r ≡ₚ [5; 3; 8; 1; 3]) ∧
  (∃ r, mergeSortIterative (merge Z.leb) 5 [5; 3; 8; 1; 3] = Ok r ∧
     isSorted Z.leb r = Ok true ∧ r ≡ₚ [5; 3; 8; 1; 3]).
Proof.
  assert (H : (length [5; 3; 8; 1; 3] ≤ 5)%nat) by (simpl; lia).
  split; [exact (merge_meets_contract Z.leb Zleb_total)|]. split; [exact H|].
  exact (sorts_correct_for Z.leb (merge Z.leb) 5 [5; 3; 8; 1; 3]
           (merge_meets_contract Z.leb Zleb_total) H).
Defined.

Lemma mergeSortRecursive_depth_witness :
  (length [5; 3; 8; 1; 3] ≤ 2 ^ 3)%nat ∧
  ∃ r, mergeSortRecursive (merge Z.leb) 3 [5; 3; 8; 1; 3] = Ok r.
Proof.
  assert (H : (length [5; 3; 8; 1; 3] ≤ 2 ^ 3)%nat) by (simpl; lia).
  split; [exact H|].
  exact (mergeSortRecursive_depth (merge Z.leb) 3 [5; 3; 8; 1; 3] H).
Defined.

Lemma mergeSortIterative_rounds_witness :
  (2 ≤ length [5; 3; 8; 1; 3])%nat ∧
  (mergeSortIterative (merge Z.leb) 3 [5; 3; 8; 1; 3] = Throw OutOfFuel
   ↔ (S 3 < length [5; 3; 8; 1; 3])%nat).
Proof.
  assert (H : (2 ≤ length [5; 3; 8; 1; 3])%nat) by (simpl; lia).
  split; [exact H|].
  exact (mergeSortIterative_rounds (merge Z.leb) 3 [5; 3; 8; 1; 3] H).
Defined.

End AlgFacts.
